(** * tams-tools: the boolean-expression engine of the logic component

    A shallow embedding of

    - the expression grammar kept in [app/components/logic/index.js]
      (lexical rules, [%left] declarations and productions), as the
      shift/reduce parser a yacc-style generator builds from it, and
    - the model of [app/components/logic/model/index.js]: the language
      registry with auto detection, [parse], [analyze], [handleError]
      and the row-selection pipeline.

    Strings are taken over 8-bit code units. *)

From Stdlib Require Import ZArith Ascii String List Lia Bool Sorted.
From stdpp Require Import base option list strings gmap.

Local Open Scope string_scope.

(** ** Raw parse nodes

    The object literals built by the semantic actions of the grammar. *)

Inductive operator := AND | OR | XOR.

Inductive RawNode :=
| binary (op : operator) (lhs rhs : RawNode)
| unary (operand : RawNode)
| group (style : Z) (content : RawNode)
| identifier (name : string)
| constant (value : bool).

#[global] Instance operator_eq_dec : EqDecision operator.
Proof. solve_decision. Defined.

#[global] Instance RawNode_eq_dec : EqDecision RawNode.
Proof. solve_decision. Defined.

(** ** The grammar *)

Module Grammar.

(** *** Lexical grammar *)

Inductive token :=
| T_TRUE | T_FALSE | T_AND | T_OR | T_XOR | T_NOT
| T_IDENTIFIER (yytext : string)
| T_LPAREN | T_RPAREN | T_COMMA | T_EOF.

#[global] Instance token_eq_dec : EqDecision token.
Proof. solve_decision. Defined.

Definition code (c : ascii) : N := N_of_ascii c.

(** [\s] on 8-bit code units: tab, line feed, vertical tab, form feed,
    carriage return, space and the no-break space. *)
Definition is_space (c : ascii) : bool :=
  let n := code c in
  ((9 <=? n) && (n <=? 13) || (n =? 32) || (n =? 160))%N.

Definition is_alpha (c : ascii) : bool :=
  let n := code c in
  ((65 <=? n) && (n <=? 90) || (97 <=? n) && (n <=? 122))%N.

(** [[_A-Za-z0-9]], which is also the class [\b] is defined by. *)
Definition is_word (c : ascii) : bool :=
  let n := code c in
  (is_alpha c || (48 <=? n) && (n <=? 57) || (n =? 95))%N.

(** The rules are tried in the order they are written and the first one
    that matches wins.  A keyword rule ends in a letter, so it carries a
    trailing [\b]: it matches only when the whole run of word characters
    is the keyword; any other run that starts with a letter is an
    IDENTIFIER. *)
Definition word_token (w : string) : token :=
  if decide (w = "true") then T_TRUE
  else if decide (w = "false") then T_FALSE
  else if decide (w = "and") then T_AND
  else if decide (w = "or") then T_OR
  else if decide (w = "xor") then T_XOR
  else if decide (w = "not") then T_NOT
  else T_IDENTIFIER w.

Definition flush (word : option string) (k : option (list token))
  : option (list token) :=
  match word with
  | None => k
  | Some w => cons (word_token w) <$> k
  end.

(** [lex_from word s]: [word] is the run of word characters read so far
    (if a token is under way), [s] the input left.  [None] is the
    lexical error raised when no rule matches. *)
Fixpoint lex_from (word : option string) (s : string)
  : option (list token) :=
  match s with
  | EmptyString => flush word (Some [T_EOF])
  | String c s' =>
    let start (_ : unit) :=
      if is_space c then lex_from None s'
      else if is_alpha c then lex_from (Some (String c EmptyString)) s'
      else if decide (c = "("%char) then cons T_LPAREN <$> lex_from None s'
      else if decide (c = ")"%char) then cons T_RPAREN <$> lex_from None s'
      else if decide (c = ","%char) then cons T_COMMA <$> lex_from None s'
      else None in
    match word with
    | Some w =>
      if is_word c then lex_from (Some (w ++ String c EmptyString)) s'
      else flush word (start ())
    | None => start ()
    end
  end.

Definition lex (s : string) : option (list token) := lex_from None s.

(** *** Operator associations and precedence

    The [%left] lines in the order they are written.  The generator
    numbers them from 1: a line further down is a higher level. *)

Inductive associativity := left | right | nonassoc.

Definition operators : list (associativity * list string) :=
  [ (left, ["AND"]);
    (left, ["OR"]);
    (left, ["XOR"]);
    (left, ["NOT"]) ].

Definition terminal (t : token) : string :=
  match t with
  | T_TRUE => "TRUE" | T_FALSE => "FALSE"
  | T_AND => "AND" | T_OR => "OR" | T_XOR => "XOR" | T_NOT => "NOT"
  | T_IDENTIFIER _ => "IDENTIFIER"
  | T_LPAREN => "(" | T_RPAREN => ")" | T_COMMA => "," | T_EOF => "EOF"
  end.

Fixpoint lookup_operator (ops : list (associativity * list string))
    (level : nat) (name : string) : option (nat * associativity) :=
  match ops with
  | [] => None
  | (a, names) :: ops' =>
    if bool_decide (name ∈ names) then Some (level, a)
    else lookup_operator ops' (S level) name
  end.

Definition precedence (name : string) : option (nat * associativity) :=
  lookup_operator operators 1 name.

(** The precedence of a production is that of the terminal in it. *)
Definition production_precedence (name : string) : nat :=
  match precedence name with Some (p, _) => p | None => 0 end.

Definition operator_name (op : operator) : string :=
  match op with AND => "AND" | OR => "OR" | XOR => "XOR" end.

Inductive action := Shift | Reduce | NoAction.

(** How a shift/reduce conflict between a production and the lookahead
    token is settled. *)
Definition resolveConflict (production : nat) (lookahead : token) : action :=
  match precedence (terminal lookahead) with
  | None => Shift
  | Some (p, a) =>
    if (production =? 0)%nat then Shift
    else if (production <? p)%nat then Shift
    else if (production =? p)%nat then
      match a with left => Reduce | right => Shift | nonassoc => NoAction end
    else Reduce
  end.

(** After a complete [e] the binary operators can be shifted (the items
    [e : e . 'AND' e] and the like); [')'], [','] and EOF can only be
    reduced on. *)
Definition binary_operator (t : token) : option operator :=
  match t with
  | T_AND => Some AND | T_OR => Some OR | T_XOR => Some XOR
  | _ => None
  end.

Definition after_operand (production : nat) (lookahead : token) : action :=
  match binary_operator lookahead with
  | Some _ => resolveConflict production lookahead
  | None => Reduce
  end.

(** *** Language grammar

    The parse stack below the operand being read: what stands to the
    left of the dot in the productions that are still open. *)
Inductive open_item :=
| open_binary (lhs : RawNode) (op : operator)   (* e op . e *)
| open_not                                      (* 'NOT' . e *)
| open_paren.                                   (* '(' . e ')' *)

(** [reduce e stack lookahead] performs the reductions the lookahead
    calls for, with [e] the operand on top of the stack. *)
Fixpoint reduce (e : RawNode) (stack : list open_item) (lookahead : token)
  : option (RawNode * list open_item) :=
  match stack with
  | open_not :: stack' =>
    match after_operand (production_precedence "NOT") lookahead with
    | Reduce => reduce (unary e) stack' lookahead
    | Shift => Some (e, stack)
    | NoAction => None
    end
  | open_binary lhs op :: stack' =>
    match after_operand (production_precedence (operator_name op)) lookahead with
    | Reduce => reduce (binary op lhs e) stack' lookahead
    | Shift => Some (e, stack)
    | NoAction => None
    end
  | open_paren :: _ | [] => Some (e, stack)
  end.

(** [run elist stack top tokens]: [elist] is the value of
    [expressionList ','] at the bottom of the stack (if any), [top] the
    operand on top of the stack (if one is complete).  [None] is the
    parse error that is thrown. *)
Fixpoint run (elist : option (list RawNode)) (stack : list open_item)
    (top : option RawNode) (tokens : list token) : option (list RawNode) :=
  match tokens with
  | [] => None
  | t :: tokens' =>
    match top with
    | None =>
      match t with
      | T_IDENTIFIER yytext => run elist stack (Some (identifier yytext)) tokens'
      | T_TRUE => run elist stack (Some (constant true)) tokens'
      | T_FALSE => run elist stack (Some (constant false)) tokens'
      | T_NOT => run elist (open_not :: stack) None tokens'
      | T_LPAREN => run elist (open_paren :: stack) None tokens'
      | T_EOF =>
        match elist, stack with
        | None, [] => Some []
        | _, _ => None
        end
      | _ => None
      end
    | Some e =>
      match t with
      | T_AND | T_OR | T_XOR =>
        match binary_operator t, reduce e stack t with
        | Some op, Some (lhs, stack') =>
          run elist (open_binary lhs op :: stack') None tokens'
        | _, _ => None
        end
      | T_RPAREN =>
        match reduce e stack t with
        | Some (content, open_paren :: stack') =>
          run elist stack' (Some (group 1 content)) tokens'
        | _ => None
        end
      | T_COMMA =>
        match reduce e stack t with
        | Some (e', []) => run (Some (default [] elist ++ [e'])%list) [] None tokens'
        | _ => None
        end
      | T_EOF =>
        match reduce e stack t with
        | Some (e', []) => Some (default [] elist ++ [e'])%list
        | _ => None
        end
      | _ => None
      end
    end
  end.

(** The generated parser: [parse(input)] returns the expression list or
    throws. *)
Definition parse (input : string) : option (list RawNode) :=
  lex input ≫= run None [] None.

(** *** Reading a tree back as tokens

    [unparse e] writes [e] with the parentheses of its [group] nodes and
    no others; [unparse_list] writes an expression list the way
    [expressions] reads it, EOF included. *)
Definition operator_token (op : operator) : token :=
  match op with AND => T_AND | OR => T_OR | XOR => T_XOR end.

Fixpoint unparse (e : RawNode) : list token :=
  match e with
  | binary op l r => unparse l ++ operator_token op :: unparse r
  | unary e => T_NOT :: unparse e
  | group _ c => T_LPAREN :: unparse c ++ [T_RPAREN]
  | identifier yytext => [T_IDENTIFIER yytext]
  | constant true => [T_TRUE]
  | constant false => [T_FALSE]
  end.

Fixpoint unparse_list (es : list RawNode) : list token :=
  match es with
  | [] => [T_EOF]
  | e :: es' =>
    unparse e ++
    match es' with
    | [] => [T_EOF]
    | _ :: _ => T_COMMA :: unparse_list es'
    end
  end.

(** The levels of the four operators, loosest first: AND, OR, XOR, NOT;
    an operand that is not an operator application is tighter still. *)
Definition level (e : RawNode) : nat :=
  match e with
  | binary AND _ _ => 1
  | binary OR _ _ => 2
  | binary XOR _ _ => 3
  | unary _ => 4
  | group _ _ | identifier _ | constant _ => 5
  end.

Definition operator_level (op : operator) : nat :=
  match op with AND => 1 | OR => 2 | XOR => 3 end.

(** [bracketed e]: [e] is bracketed the way the levels and left
    associativity say.  The left operand of a binary operator is at its
    level or tighter, the right operand strictly tighter, the operand of
    NOT is a NOT or tighter; a group is the one the grammar builds. *)
Fixpoint bracketed (e : RawNode) : bool :=
  match e with
  | binary op l r =>
    (operator_level op <=? level l)%nat && (operator_level op <? level r)%nat
    && bracketed l && bracketed r
  | unary e => (4 <=? level e)%nat && bracketed e
  | group style c => bool_decide (style = 1%Z) && bracketed c
  | identifier _ | constant _ => true
  end.

(** The open productions a complete tree leaves on the stack until the
    lookahead reduces them: those along its right spine. *)
Fixpoint spine (e : RawNode) (stack : list open_item)
  : RawNode * list open_item :=
  match e with
  | binary op l r => spine r (open_binary l op :: stack)
  | unary e => spine e (open_not :: stack)
  | _ => (e, stack)
  end.

(** *** Notions used to state what the parser does *)

Local Open Scope nat_scope.
Local Open Scope list_scope.

(** The level of a lookahead token after a complete operand. *)
Definition lookahead_level (t : token) : nat :=
  match t with T_AND => 1 | T_OR => 2 | T_XOR => 3 | _ => 0 end.

Definition follows_operand (t : token) : Prop :=
  t = T_AND ∨ t = T_OR ∨ t = T_XOR ∨ t = T_RPAREN ∨ t = T_COMMA ∨ t = T_EOF.

(** An open production is left alone by an operand of this level. *)
Definition guards (stack : list open_item) (n : nat) : Prop :=
  match stack with
  | open_binary _ op :: _ => operator_level op < n
  | open_not :: _ => 4 ≤ n
  | open_paren :: _ | [] => True
  end.

(** The invariant of the parse stack, and the tokens it stands for. *)
Fixpoint stack_ok (stack : list open_item) : Prop :=
  match stack with
  | [] => True
  | open_binary lhs op :: stack' =>
    bracketed lhs = true ∧ operator_level op ≤ level lhs ∧
    guards stack' (operator_level op) ∧ stack_ok stack'
  | _ :: stack' => stack_ok stack'
  end.

Fixpoint stack_tokens (stack : list open_item) : list token :=
  match stack with
  | [] => []
  | open_binary lhs op :: stack' =>
    stack_tokens stack' ++ unparse lhs ++ [operator_token op]
  | open_not :: stack' => stack_tokens stack' ++ [T_NOT]
  | open_paren :: stack' => stack_tokens stack' ++ [T_LPAREN]
  end.

Definition list_tokens (elist : option (list RawNode)) : list token :=
  flat_map (λ e, unparse e ++ [T_COMMA]) (default [] elist).

Definition top_tokens (top : option RawNode) : list token :=
  match top with None => [] | Some e => unparse e end.

Definition top_ok (top : option RawNode) : Prop :=
  match top with
  | None => True
  | Some e => bracketed e = true ∧ level e = 5
  end.

(** A text of white space only. *)
Fixpoint blank (s : string) : bool :=
  match s with
  | EmptyString => true
  | String c s' => is_space c && blank s'
  end.

(** A token list that ends in its only EOF. *)
Definition ends_in_EOF (ts : list token) : Prop :=
  ∃ ts', ts = ts' ++ [T_EOF] ∧ T_EOF ∉ ts'.

(** *** Notions used to state what the lexer does *)

Fixpoint all_chars (P : ascii → bool) (s : string) : bool :=
  match s with
  | EmptyString => true
  | String c s' => P c && all_chars P s'
  end.

(** The token of a one-character rule. *)
Definition punctuation (c : ascii) : option token :=
  if decide (c = "("%char) then Some T_LPAREN
  else if decide (c = ")"%char) then Some T_RPAREN
  else if decide (c = ","%char) then Some T_COMMA
  else None.

(** The characters some rule can consume. *)
Definition lexable (c : ascii) : bool :=
  is_space c || is_word c || bool_decide (c = "("%char)
  || bool_decide (c = ")"%char) || bool_decide (c = ","%char).

Definition keywords : list string :=
  ["true"; "false"; "and"; "or"; "xor"; "not"]%string.

(** [[A-Za-z][_A-Za-z0-9]*] *)
Definition word_text (y : string) : bool :=
  match y with
  | EmptyString => false
  | String c y' => is_alpha c && all_chars is_word y'
  end.

(** The texts an IDENTIFIER token can carry. *)
Definition identifier_text (y : string) : bool :=
  word_text y && negb (bool_decide (y ∈ keywords)).

(** A text for each token, and for a token list: every token is followed
    by a space, EOF ends the text. *)
Definition token_text (t : token) : string :=
  match t with
  | T_TRUE => "true" | T_FALSE => "false"
  | T_AND => "and" | T_OR => "or" | T_XOR => "xor" | T_NOT => "not"
  | T_IDENTIFIER yytext => yytext
  | T_LPAREN => "(" | T_RPAREN => ")" | T_COMMA => "," | T_EOF => EmptyString
  end%string.

Fixpoint print (ts : list token) : string :=
  match ts with
  | [] | T_EOF :: _ => EmptyString
  | t :: ts' => (token_text t +:+ String " " (print ts'))%string
  end.

Definition printable (t : token) : bool :=
  match t with
  | T_IDENTIFIER yytext => identifier_text yytext
  | _ => true
  end.

(** The identifier names of a raw tree. *)
Fixpoint raw_names (e : RawNode) : list string :=
  match e with
  | binary _ l r => raw_names l ++ raw_names r
  | unary e => raw_names e
  | group _ c => raw_names c
  | identifier name => [name]
  | constant _ => []
  end.

End Grammar.

(** ** The expression library

    [app/components/logic/lib/expression] is imported by the model but is
    not among the sources at hand; its four functions are modelled from
    the specification. *)

(** Modelled from the spec: the canonical AST of section 3 (the source of
    [lib/expression] is missing).  [node] is the tag [analyze] reads. *)
Inductive Expression :=
| BinaryOp (op : operator) (lhs rhs : Expression)
| UnaryOp (operand : Expression)
| Group (content : Expression)
| Identifier (name : string)
| Constant (value : bool).

#[global] Instance Expression_eq_dec : EqDecision Expression.
Proof. solve_decision. Defined.

(** Expressions are keys of maps: they are countable. *)
Definition operator_code (op : operator) : nat :=
  match op with AND => 0 | OR => 1 | XOR => 2 end.

Definition operator_of_code (n : nat) : operator :=
  match n with 0 => AND | 1 => OR | _ => XOR end.

#[global] Instance operator_countable : Countable operator.
Proof.
  apply (inj_countable' operator_code operator_of_code).
  by intros [].
Defined.

Fixpoint Expression_encode (e : Expression)
  : gen_tree (operator + (string + bool)) :=
  match e with
  | BinaryOp op l r =>
    GenNode 0 [GenLeaf (inl op); Expression_encode l; Expression_encode r]
  | UnaryOp e => GenNode 1 [Expression_encode e]
  | Group c => GenNode 2 [Expression_encode c]
  | Identifier name => GenLeaf (inr (inl name))
  | Constant v => GenLeaf (inr (inr v))
  end.

Fixpoint Expression_decode (t : gen_tree (operator + (string + bool)))
  : Expression :=
  match t with
  | GenNode 0 [GenLeaf (inl op); l; r] =>
    BinaryOp op (Expression_decode l) (Expression_decode r)
  | GenNode 1 [e] => UnaryOp (Expression_decode e)
  | GenNode 2 [c] => Group (Expression_decode c)
  | GenLeaf (inr (inl name)) => Identifier name
  | GenLeaf (inr (inr v)) => Constant v
  | _ => Constant false
  end.

#[global] Instance Expression_countable : Countable Expression.
Proof.
  apply (inj_countable' Expression_encode Expression_decode).
  induction x; simpl; congruence.
Defined.

Definition node (e : Expression) : string :=
  match e with
  | BinaryOp _ _ _ => "binary"
  | UnaryOp _ => "unary"
  | Group _ => "group"
  | Identifier _ => "identifier"
  | Constant _ => "constant"
  end.

(** Modelled from the spec: [expressionFromJson], the normalizer of
    section 4.3, a total structural mapping that keeps one [Group] per
    grouping node (the source of [lib/expression] is missing). *)
Fixpoint expressionFromJson (n : RawNode) : Expression :=
  match n with
  | binary op l r => BinaryOp op (expressionFromJson l) (expressionFromJson r)
  | unary e => UnaryOp (expressionFromJson e)
  | group _ c => Group (expressionFromJson c)
  | identifier name => Identifier name
  | constant v => Constant v
  end.

(** Depth-first pre-order, left-to-right walks of an expression. *)
Fixpoint names (e : Expression) : list string :=
  match e with
  | BinaryOp _ l r => names l ++ names r
  | UnaryOp e => names e
  | Group c => names c
  | Identifier name => [name]
  | Constant _ => []
  end.

Fixpoint nodes (e : Expression) : list Expression :=
  e :: match e with
       | BinaryOp _ l r => nodes l ++ nodes r
       | UnaryOp e => nodes e
       | Group c => nodes c
       | Identifier _ | Constant _ => []
       end.

(** [first_seen l]: the elements of [l] in the order they first occur,
    each once. *)
Fixpoint first_seen_from {A} `{EqDecision A} (seen l : list A) : list A :=
  match l with
  | [] => []
  | x :: l' =>
    if bool_decide (x ∈ seen) then first_seen_from seen l'
    else x :: first_seen_from (x :: seen) l'
  end.

Definition first_seen {A} `{EqDecision A} (l : list A) : list A :=
  first_seen_from [] l.

(** Modelled from the spec: [collectIdentifiers], section 4.4: pre-order
    traversal recording each [Identifier.name] the first time it is seen
    (the source of [lib/expression] is missing). *)
Definition collectIdentifiers (e : Expression) : list string :=
  first_seen (names e).

(** Modelled from the spec: [collectSubExpressions], section 4.4: every
    node of the subtree, root included, duplicates by structural equality
    collapsed, in traversal order of first occurrence (the source of
    [lib/expression] is missing). *)
Definition collectSubExpressions (e : Expression) : list Expression :=
  first_seen (nodes e).

(** Modelled from the spec: [evaluateExpression], section 4.5 (the source
    of [lib/expression] is missing).  Looking up a name the assignment
    lacks is the fatal case: [None]. *)
Fixpoint evaluateExpression (e : Expression) (assignment : gmap string bool)
  : option bool :=
  match e with
  | Constant v => Some v
  | Identifier name => assignment !! name
  | Group c => evaluateExpression c assignment
  | UnaryOp e => negb <$> evaluateExpression e assignment
  | BinaryOp op l r =>
    l' ← evaluateExpression l assignment;
    r' ← evaluateExpression r assignment;
    Some match op with
         | AND => l' && r'
         | OR => l' || r'
         | XOR => xorb l' r'
         end
  end.

(** ** Immutable collections

    The model imports Immutable ([I.List], [I.Set], [I.Map]).  A [List]
    is a [list]; a [Map] is a [gmap].  A [Set] is not ordered by
    insertion: it is a [Map] from its members to [true], and what
    [toList] returns is the iteration order of that map. *)

Module Immutable.

(** The conversion the bitwise operators of JavaScript apply to their
    operands: the integer modulo [2 ^ 32], read as a signed 32-bit
    number. *)
Definition ToInt32 (z : Z) : Z := ((z + 2 ^ 31) `mod` 2 ^ 32 - 2 ^ 31)%Z.

(** [smi]: fold a 32-bit hash into the 31-bit small-integer range. *)
Definition smi (i32 : Z) : Z :=
  let u := (i32 `mod` 2 ^ 32)%Z in
  ToInt32 (Z.lor (Z.land (Z.shiftr u 1) 0x40000000) (Z.land u 0xBFFFFFFF)).

(** [hashString]: [hash = 31 * hash + charCode | 0] over the characters. *)
Fixpoint hashString_from (hash : Z) (s : string) : Z :=
  match s with
  | EmptyString => smi hash
  | String c s' =>
    hashString_from (ToInt32 (31 * hash + Z.of_N (N_of_ascii c))) s'
  end.

Definition hashString (s : string) : Z := hashString_from 0 s.

(** A map of at most [MAX_ARRAY_MAP_SIZE] entries is an array of entries
    in insertion order.  The entry that would make it larger turns it
    into a hash trie, whose nodes are indexed by 5 bits of the key's hash
    at a time, lowest bits first; entries with the same hash share a
    collision node, in insertion order. *)
Definition MAX_ARRAY_MAP_SIZE : nat := 8.

Definition fragment (keyHash : Z) (shift : Z) : Z :=
  Z.land (Z.shiftr (keyHash `mod` 2 ^ 32) shift) 31.

(** Position of a hash in the iteration of a trie: its fragments, the one
    at shift 0 most significant. *)
Definition trie_index (keyHash : Z) : Z :=
  fold_left (fun acc shift => (acc * 32 + fragment keyHash shift)%Z)
    [0; 5; 10; 15; 20; 25; 30]%Z 0%Z.

(** The root of the map behind a set of strings.  A trie is kept as the
    sequence in which it iterates over its entries: by increasing
    [trie_index] of the hash, and in insertion order among entries with
    the same hash. *)
Inductive MapNode :=
| ArrayMapNode (entries : list string)
| TrieNode (entries : list string).

(** [update] on a trie: nothing changes when the key is there; a new key
    goes before the first entry with a larger index. *)
Fixpoint trie_update (entries : list string) (key : string) : list string :=
  match entries with
  | [] => [key]
  | k :: entries' =>
    if decide (k = key) then entries
    else if (trie_index (hashString key) <? trie_index (hashString k))%Z
    then key :: entries
    else k :: trie_update entries' key
  end.

(** [createNodes]: the trie made when an array is full: a node for the
    new key, into which the entries of the array are put one by one. *)
Definition createNodes (entries : list string) (key : string) : list string :=
  fold_left trie_update entries [key].

(** [set.add(key)] *)
Definition add (set : MapNode) (key : string) : MapNode :=
  match set with
  | ArrayMapNode entries =>
    if bool_decide (key ∈ entries) then set
    else if (MAX_ARRAY_MAP_SIZE <=? length entries)%nat
    then TrieNode (createNodes entries key)
    else ArrayMapNode (entries ++ [key])
  | TrieNode entries => TrieNode (trie_update entries key)
  end.

(** [list.toSet()] adds the values in order to the empty set;
    [set.toList()] iterates over the set. *)
Definition toSet (l : list string) : MapNode :=
  fold_left add l (ArrayMapNode []).

Definition toList (set : MapNode) : list string :=
  match set with ArrayMapNode entries | TrieNode entries => entries end.

(** [I.Map(pairs)]: later pairs overwrite earlier ones. *)
Definition Map {K V} `{Countable K} (pairs : list (K * V)) : gmap K V :=
  fold_left (fun m kv => <[kv.1 := kv.2]> m) pairs ∅.

(** [a.merge(b)]: the entries of [b] win. *)
Definition merge {K V} `{Countable K} (a b : gmap K V) : gmap K V := b ∪ a.

(** The entries of a trie come by increasing index and are distinct. *)
Definition index (key : string) : Z := trie_index (hashString key).

Definition trie_ok (entries : list string) : Prop :=
  StronglySorted (λ a b, (index a ≤ index b)%Z) entries ∧ NoDup entries.

Definition set_ok (set : MapNode) : Prop :=
  match set with
  | ArrayMapNode entries => NoDup entries
  | TrieNode entries => trie_ok entries
  end.

End Immutable.

(** ** The model *)

Module Model.

(** What the generated parsers throw: a syntax error with a message and
    the place of the first token that could not be consumed. *)
Record Position := { offset : N; line : N; column : N }.
Record Location := { start : Position; end_ : Position }.
Record SyntaxError := { se_message : string; se_location : Location }.

(** [function ParseError({lang, string, message, location, detected = null})].
    [location] is absent when what was caught had none. *)
Record ParseError := {
  pe_lang : string;
  pe_string : string;
  pe_message : string;
  pe_location : option Location;
  pe_detected : option string;
}.

(** The values thrown inside [parse]. *)
Inductive Thrown :=
| ThrownSyntaxError (e : SyntaxError)
| ThrownParseError (e : ParseError)
| ThrownTypeError (message : string).

Definition message (e : Thrown) : string :=
  match e with
  | ThrownSyntaxError e => se_message e
  | ThrownParseError e => pe_message e
  | ThrownTypeError m => m
  end.

Definition location (e : Thrown) : option Location :=
  match e with
  | ThrownSyntaxError e => Some (se_location e)
  | ThrownParseError e => pe_location e
  | ThrownTypeError _ => None
  end.

Definition detected (e : Thrown) : option string :=
  match e with
  | ThrownParseError e => pe_detected e
  | _ => None
  end.

(** What a language's [parse] returns. *)
Record ParseResult := {
  pr_lang : string;
  pr_parsed : list RawNode;
  pr_detected : option string;
}.

(** [I.Record({name, parse})] *)
Record language := {
  name : string;
  parse : string → Thrown + ParseResult;
}.

Section Registry.

(** The four parsers generated from the [.pegjs] grammars, which are not
    among the sources at hand: [parse(string)] returns the raw nodes or
    throws a syntax error. *)
Variables cParser latexParser mathParser pythonParser
  : string → SyntaxError + list RawNode.

Definition concrete (lang : string)
    (parser : string → SyntaxError + list RawNode) (str : string)
  : Thrown + ParseResult :=
  match parser str with
  | inr parsed =>
    inr {| pr_lang := lang; pr_parsed := parsed; pr_detected := None |}
  | inl e => inl (ThrownSyntaxError e)
  end.

Definition cLang : language :=
  {| name := "C"; parse := concrete "c" cParser |}.

Definition latexLang : language :=
  {| name := "Latex"; parse := concrete "latex" latexParser |}.

Definition pythonLang : language :=
  {| name := "Python"; parse := concrete "python" pythonParser |}.

Definition mathLang : language :=
  {| name := "Math"; parse := concrete "math" mathParser |}.

Definition allLanguages : list language :=
  [ cLang; pythonLang; latexLang; mathLang ].

(** The [for (const lang of allLanguages)] loop of [autoLang.parse], with
    its two variables [error] and [detected]. *)
Fixpoint autoLang_loop (langs : list language) (str : string)
    (error : option Thrown) (detected : option string)
  : Thrown + ParseResult :=
  match langs with
  | lang :: langs' =>
    match parse lang str with
    | inr result =>
      inr {| pr_parsed := pr_parsed result;
             pr_lang := "auto";
             pr_detected := Some (name lang) |}
    | inl e =>
      match error with
      | None => autoLang_loop langs' str (Some e) (Some (name lang))
      | Some error' =>
        match location e, location error' with
        | Some le, Some lerror =>
          if (offset (start lerror) <? offset (start le))%N
          then autoLang_loop langs' str (Some e) (Some (name lang))
          else autoLang_loop langs' str error detected
        | _, _ => inl (ThrownTypeError "Cannot read property 'start' of undefined")
        end
      end
    end
  | [] =>
    match error with
    | Some error' =>
      inl (ThrownParseError
             {| pe_lang := "auto";
                pe_string := str;
                pe_message := message error';
                pe_location := location error';
                pe_detected := detected |})
    | None => inl (ThrownTypeError "Cannot read property 'message' of null")
    end
  end.

Definition autoLang : language :=
  {| name := "Auto detect";
     parse := fun str => autoLang_loop allLanguages str None None |}.

(** The object [languages], read as [languages[lang]]. *)
Definition languages (lang : string) : option language :=
  if decide (lang = "auto") then Some autoLang
  else if decide (lang = "c") then Some cLang
  else if decide (lang = "latex") then Some latexLang
  else if decide (lang = "math") then Some mathLang
  else if decide (lang = "python") then Some pythonLang
  else None.

(** The argument of [parse] and what it returns. *)
Record Input := {
  in_string : string;
  in_lang : string;
  in_showSubExpressions : bool;
}.

Record Parsed := {
  p_lang : string;
  p_detected : option string;
  p_string : string;
  p_showSubExpressions : bool;
  p_expressions : list Expression;
}.

Definition model_parse (i : Input) : ParseError + Parsed :=
  let thrown :=
    match languages (in_lang i) with
    | Some l => parse l (in_string i)
    | None => inl (ThrownTypeError "Cannot read property 'parse' of undefined")
    end in
  match thrown with
  | inr parseResult =>
    inr {| p_lang := pr_lang parseResult;
           p_detected := pr_detected parseResult;
           p_string := in_string i;
           p_showSubExpressions := in_showSubExpressions i;
           p_expressions := expressionFromJson <$> pr_parsed parseResult |}
  | inl e =>
    inl {| pe_lang := in_lang i;
           pe_string := in_string i;
           pe_message := message e;
           pe_location := location e;
           pe_detected := detected e |}
  end.

(** [analyze]: what it returns, and the function. *)
Record Analyzed := {
  a_lang : string;
  a_detected : option string;
  a_string : string;
  a_expressions : list Expression;
  a_identifiers : list string;
  a_subExpressions : list Expression;
  a_toplevelExpressions : list Expression;
  a_showSubExpressions : bool;
}.

Definition analyze (p : Parsed) : Analyzed :=
  let expressionList := p_expressions p in
  let identifiers :=
    Immutable.toList
      (Immutable.toSet (flat_map collectIdentifiers expressionList)) in
  let subExpressions :=
    flat_map (fun expression => collectSubExpressions expression)
      expressionList in
  let toplevelExpressions :=
    filter (fun e => node e ≠ "identifier" ∧ node e ≠ "constant")
      expressionList in
  {| a_lang := p_lang p;
     a_detected := p_detected p;
     a_string := p_string p;
     a_expressions := expressionList;
     a_identifiers := identifiers;
     a_subExpressions := subExpressions;
     a_toplevelExpressions := toplevelExpressions;
     a_showSubExpressions := p_showSubExpressions p |}.

(** [handleError]: the object literal it emits has these four keys and
    no others. *)
Record ErrorInfo := {
  err_location : option Location;
  err_message : string;
}.

Record ErrorState := {
  e_lang : string;
  e_detected : option string;
  e_error : ErrorInfo;
  e_string : string;
}.

Definition handleError (error : ParseError) : ErrorState :=
  {| e_lang := pe_lang error;
     e_detected := pe_detected error;
     e_error := {| err_location := pe_location error;
                   err_message := pe_message error |};
     e_string := pe_string error |}.

(** What reaches [flatMap]: the result of [analyze], or the object of
    [handleError] when [parse] threw. *)
Inductive Document :=
| Analysis (a : Analyzed)
| Failure (e : ErrorState).

Definition document (i : Input) : Document :=
  match model_parse i with
  | inr p => Analysis (analyze p)
  | inl error => Failure (handleError error)
  end.

(** The keys of the object, in the order the literals list them. *)
Definition keys (d : Document) : list string :=
  match d with
  | Analysis _ =>
    ["lang"; "detected"; "string"; "expressions"; "identifiers";
     "subExpressions"; "toplevelExpressions"; "showSubExpressions"]
  | Failure _ => ["lang"; "detected"; "error"; "string"]
  end.

(** The destructuring pattern of the [flatMap] callback: a key the
    object lacks reads as [undefined], here [None]. *)
Definition get_detected (d : Document) : option string :=
  match d with
  | Analysis a => a_detected a
  | Failure e => e_detected e
  end.

Definition get_expressions (d : Document) : option (list Expression) :=
  match d with Analysis a => Some (a_expressions a) | Failure _ => None end.

Definition get_identifiers (d : Document) : option (list string) :=
  match d with Analysis a => Some (a_identifiers a) | Failure _ => None end.

Definition get_subExpressions (d : Document) : option (list Expression) :=
  match d with Analysis a => Some (a_subExpressions a) | Failure _ => None end.

Definition get_error (d : Document) : option ErrorInfo :=
  match d with Analysis _ => None | Failure e => Some (e_error e) end.

Definition get_toplevelExpressions (d : Document)
  : option (list Expression) :=
  match d with
  | Analysis a => Some (a_toplevelExpressions a)
  | Failure _ => None
  end.

(** *** Row selection

    [selectRow$.startWith(null).scan((prev, val) => prev === val ? null : val)].
    A value of the stream is a row number or [null]. *)
Definition toggle (prev val : option Z) : option Z :=
  if decide (prev = val) then None else val.

(** [scan] without a seed: the first value is passed through and seeds
    the accumulator. *)
Fixpoint scan_from {A} (f : A → A → A) (acc : A) (l : list A) : list A :=
  match l with
  | [] => []
  | val :: l' => let acc' := f acc val in acc' :: scan_from f acc' l'
  end.

Definition scan {A} (f : A → A → A) (l : list A) : list A :=
  match l with
  | [] => []
  | first :: l' => first :: scan_from f first l'
  end.

Definition startWith {A} (x : A) (l : list A) : list A := x :: l.

(** The selection after each value of [selectRow$], for one document. *)
Definition selections (selectRow : list (option Z)) : list (option Z) :=
  scan toggle (startWith None selectRow).

(** *** Evaluation of the selected row

    [!!(Math.pow(2, i) & selectedRow)]: [&] works on the operands
    converted to 32-bit integers. *)
Definition bit (i : nat) (selectedRow : Z) : bool :=
  negb (Z.land (Immutable.ToInt32 (2 ^ Z.of_nat i))
               (Immutable.ToInt32 selectedRow) =? 0)%Z.

Definition identifierMap (identifiers : list string) (selectedRow : Z)
  : gmap string bool :=
  Immutable.Map (imap (fun i name => (name, bit i selectedRow)) identifiers).

(** The keys of [subEvalutation] are expressions and identifier names. *)
Definition subEvalutation (d : Document) (selectedRow : option Z)
  : Thrown + option (gmap (Expression + string) bool) :=
  match selectedRow with
  | None => inr None
  | Some row =>
    match get_identifiers d, get_toplevelExpressions d with
    | Some identifiers, Some toplevelExpressions =>
      let identifierMap := identifierMap identifiers row in
      match
        mapM (fun expr =>
                pair (inl expr : Expression + string)
                  <$> evaluateExpression expr identifierMap)
             toplevelExpressions
      with
      | Some pairs =>
        inr (Some (Immutable.merge (Immutable.Map pairs)
                                   (kmap inr identifierMap)))
      | None => inl (ThrownTypeError "identifier without a value")
      end
    | _, _ => inl (ThrownTypeError "Cannot read property 'map' of undefined")
    end
  end.

(** The state record emitted for a document and a selection.  [lang],
    [string] and [showSubExpressions] are the arguments of the
    [combineLatest] selector; the rest is read from the document. *)
Record State := {
  s_lang : string;
  s_detected : option string;
  s_string : string;
  s_expressions : option (list Expression);
  s_identifiers : option (list string);
  s_subExpressions : option (list Expression);
  s_showSubExpressions : bool;
  s_error : option ErrorInfo;
  s_selectedRow : option Z;
  s_subEvalutation : option (gmap (Expression + string) bool);
  s_toplevelExpressions : option (list Expression);
  s_table : list (list bool);
}.

Definition state (i : Input) (d : Document) (selectedRow : option Z)
  : Thrown + State :=
  match subEvalutation d selectedRow with
  | inl e => inl e
  | inr subEvalutation =>
    inr {| s_lang := in_lang i;
           s_detected := get_detected d;
           s_string := in_string i;
           s_expressions := get_expressions d;
           s_identifiers := get_identifiers d;
           s_subExpressions := get_subExpressions d;
           s_showSubExpressions := in_showSubExpressions i;
           s_error := get_error d;
           s_selectedRow := selectedRow;
           s_subEvalutation := subEvalutation;
           s_toplevelExpressions := get_toplevelExpressions d;
           s_table := [] |}
  end.

(** The inner stream of one document: a state per selection. *)
Definition inner (i : Input) (selectRow : list (option Z))
  : list (Thrown + State) :=
  state i (document i) <$> selections selectRow.

(** *** The stream of states

    [combineLatest(input$.startWith(''), language$.startWith('auto'),
    showSubExpressions$.startWith(true), ...).switch()]: every value of
    one of the three sources starts a new inner stream for the latest
    triple and drops the one before; values of [selectRow$] go to the
    inner stream that is current.  An error in the inner stream ends the
    stream of states. *)
Inductive Event :=
| input (str : string)
| language_ (lang : string)
| showSubExpressions (flag : bool)
| selectRow (val : option Z).

Record Live := {
  latest : Input;
  selected : option Z;
}.

Definition initial : Input :=
  {| in_string := EmptyString; in_lang := "auto";
     in_showSubExpressions := true |}.

Definition switch (i : Input) : Live * (Thrown + State) :=
  ({| latest := i; selected := None |},
   state i (document i) None).

Definition step (l : Live) (ev : Event) : Live * (Thrown + State) :=
  let i := latest l in
  match ev with
  | input str =>
    switch {| in_string := str; in_lang := in_lang i;
              in_showSubExpressions := in_showSubExpressions i |}
  | language_ lang =>
    switch {| in_string := in_string i; in_lang := lang;
              in_showSubExpressions := in_showSubExpressions i |}
  | showSubExpressions flag =>
    switch {| in_string := in_string i; in_lang := in_lang i;
              in_showSubExpressions := flag |}
  | selectRow val =>
    let selected' := toggle (selected l) val in
    ({| latest := i; selected := selected' |},
     state i (document i) selected')
  end.

Fixpoint states_from (l : Live) (events : list Event) : list State :=
  match events with
  | [] => []
  | ev :: events' =>
    match step l ev with
    | (l', inr s) => s :: states_from l' events'
    | (_, inl _) => []
    end
  end.

Definition model (events : list Event) : list State :=
  match switch initial with
  | (l, inr s) => s :: states_from l events
  | (_, inl _) => []
  end.

End Registry.

(** *** Notions used to state what the model does *)

Local Open Scope list_scope.

(** The choice the loop makes among failures: the first one, replaced
    whenever a later one lies strictly further into the text. *)
Fixpoint furthest (failures : list (string * SyntaxError))
    (chosen : option (string * SyntaxError)) : option (string * SyntaxError) :=
  match failures with
  | [] => chosen
  | f :: failures' =>
    match chosen with
    | None => furthest failures' (Some f)
    | Some c =>
      if (offset (start (se_location c.2)) <?
          offset (start (se_location f.2)))%N
      then furthest failures' (Some f)
      else furthest failures' chosen
    end
  end.

Definition failure_offset (f : string * SyntaxError) : N :=
  offset (start (se_location f.2)).

Definition chosen_error (chosen : option (string * SyntaxError))
  : option Thrown := (λ c, ThrownSyntaxError c.2) <$> chosen.

Definition chosen_name (chosen : option (string * SyntaxError))
  : option string := fst <$> chosen.

(** The selection in force after the values of [selectRow$] so far. *)
Definition current (selectRow : list (option Z)) : option Z :=
  default None (last (selections selectRow)).

(** The events that make [combineLatest] start a new document. *)
Definition restarts (ev : Event) : bool :=
  match ev with
  | input _ | language_ _ | showSubExpressions _ => true
  | selectRow _ => false
  end.

(** *** Notions used to state what the registry and the component do *)


(** The keys of [languages] and the keys of the concrete notations with
    the names of their languages. *)
Definition language_keys : list string :=
  ["auto"; "c"; "latex"; "math"; "python"]%string.

Definition concrete_notations : list (string * string) :=
  [("C", "c"); ("Python", "python"); ("Latex", "latex"); ("Math", "math")]%string.

(** The rows of the truth table over [n] identifiers. *)
Definition is_row (n : nat) (row : Z) : Prop :=
  (0 ≤ row < 2 ^ Z.of_nat n)%Z.

(** [distinctUntilChanged(keySelector)]: a value is passed on when its
    key differs from the key of the value before it. *)
Fixpoint distinct_from {A K} `{EqDecision K} (key : A → K) (previous : K)
    (l : list A) : list A :=
  match l with
  | [] => []
  | x :: l' =>
    if decide (key x = previous) then distinct_from key previous l'
    else x :: distinct_from key (key x) l'
  end.

Definition distinctUntilChanged {A K} `{EqDecision K} (key : A → K)
    (l : list A) : list A :=
  match l with
  | [] => []
  | x :: l' => x :: distinct_from key (key x) l'
  end.

(** The component: [table$ = state$.distinctUntilChanged((s) => s.table)
    .map((state) => state.table)]. *)
Definition table_ (states : list State) : list (list (list bool)) :=
  s_table <$> distinctUntilChanged s_table states.

(** What a concrete notation gives for a parser. *)
Definition delegated (lang str : string) (flag : bool)
    (parser : string → SyntaxError + list RawNode) : ParseError + Parsed :=
  match parser str with
  | inr parsed =>
    inr {| p_lang := lang; p_detected := None; p_string := str;
           p_showSubExpressions := flag;
           p_expressions := expressionFromJson <$> parsed |}
  | inl e =>
    inl {| pe_lang := lang; pe_string := str; pe_message := se_message e;
           pe_location := Some (se_location e); pe_detected := None |}
  end.


End Model.

(** ** Sample inputs

    Texts read by the grammar above, and parsers to put in the registry:
    one that rejects every text at a given offset and one that reads
    with the grammar above. *)

Module Samples.
Import Model.

Definition read (text : string) : list Expression :=
  expressionFromJson <$> default [] (Grammar.parse text).

Definition parsed (text : string) : Parsed :=
  {| p_lang := "math"; p_detected := None; p_string := text;
     p_showSubExpressions := true; p_expressions := read text |}.

Definition failure (at_offset : N) : SyntaxError :=
  let position :=
    {| offset := at_offset; line := 1; column := at_offset + 1 |} in
  {| se_message := "Expected expression";
     se_location := {| start := position; end_ := position |} |}.

Definition rejecting (at_offset : N) : string → SyntaxError + list RawNode :=
  fun _ => inl (failure at_offset).

Definition accepting : string → SyntaxError + list RawNode :=
  fun str =>
    match Grammar.parse str with
    | Some parsed => inr parsed
    | None => inl (failure 0)
    end.

Definition nine_names : string :=
  "i and h and g and f and e and d and c and b and a".

Definition thirty_three_names : string :=
  "a0 or a1 or a2 or a3 or a4 or a5 or a6 or a7 or a8 or a9 or b0 or b1 or b2 or b3 or b4 or b5 or b6 or b7 or b8 or b9 or c0 or c1 or c2 or c3 or c4 or c5 or c6 or c7 or c8 or c9 or d0 or d1 or d2".

End Samples.

(** * Properties *)

(** ** The grammar: precedence and associativity *)

Module GrammarFacts.
Import Grammar.
Local Open Scope nat_scope.
Local Open Scope list_scope.

Lemma after_operand_binary op t :
  follows_operand t →
  after_operand (production_precedence (operator_name op)) t =
  if (operator_level op <? lookahead_level t)%nat then Shift else Reduce.
Proof.
  intros [->|[->|[->|[->|[->| ->]]]]]; destruct op; reflexivity.
Qed.

Lemma after_operand_not t :
  follows_operand t →
  after_operand (production_precedence "NOT") t = Reduce.
Proof. intros [->|[->|[->|[->|[->| ->]]]]]; reflexivity. Qed.

Lemma reduce_binary e lhs op stack t :
  follows_operand t →
  reduce e (open_binary lhs op :: stack) t =
  if (operator_level op <? lookahead_level t)%nat
  then Some (e, open_binary lhs op :: stack)
  else reduce (binary op lhs e) stack t.
Proof.
  intros Ht. simpl. rewrite after_operand_binary by done.
  by destruct (_ <? _)%nat.
Qed.

Lemma reduce_not e stack t :
  follows_operand t →
  reduce e (open_not :: stack) t = reduce (unary e) stack t.
Proof. intros Ht. simpl. by rewrite after_operand_not. Qed.

(** The lookahead reassembles a tree from its spine when it is no
    tighter than the tree. *)
Lemma level_binary op l r : level (binary op l r) = operator_level op.
Proof. by destruct op. Qed.

Lemma reduce_spine e : ∀ stack t,
  follows_operand t → bracketed e = true → lookahead_level t ≤ level e →
  reduce (spine e stack).1 (spine e stack).2 t = reduce e stack t.
Proof.
  induction e as [op l IHl r IHr|e IHe| | |]; intros stack t Ht Hb Hl;
    cbn [bracketed spine] in *; try done.
  - apply andb_prop in Hb as [Hb Hbr]. apply andb_prop in Hb as [Hb Hbl].
    apply andb_prop in Hb as [Hll Hlr].
    apply Nat.leb_le in Hll. apply Nat.ltb_lt in Hlr.
    rewrite level_binary in Hl.
    rewrite IHr by (done || lia).
    rewrite reduce_binary by done.
    destruct (Nat.ltb_spec (operator_level op) (lookahead_level t)); [lia|done].
  - apply andb_prop in Hb as [Hle Hb]. apply Nat.leb_le in Hle.
    change (level (unary e)) with 4 in Hl.
    rewrite IHe by (done || lia). by rewrite reduce_not.
Qed.

(** It stops at an open production the lookahead is tighter than. *)
Lemma reduce_guarded e stack t :
  follows_operand t → guards stack (lookahead_level t) →
  reduce e stack t = Some (e, stack).
Proof.
  intros Ht Hg. destruct stack as [|[lhs op| |] stack]; simpl in Hg; try done.
  - rewrite reduce_binary by done.
    destruct (Nat.ltb_spec (operator_level op) (lookahead_level t)); [done|lia].
  - destruct Ht as [->|[->|[->|[->|[->| ->]]]]]; simpl in Hg; lia.
Qed.

Lemma guards_not stack : guards stack 4.
Proof. destruct stack as [|[? []| |]]; simpl; lia. Qed.

Lemma guards_mono stack n m : guards stack n → n ≤ m → guards stack m.
Proof. destruct stack as [|[]]; simpl; lia. Qed.

(** Reading the tokens of a bracketed tree leaves its spine on the
    stack. *)
Lemma run_unparse e : ∀ elist stack rest,
  bracketed e = true → guards stack (level e) →
  run elist stack None (unparse e ++ rest) =
  run elist (spine e stack).2 (Some (spine e stack).1) rest.
Proof.
  induction e as [op l IHl r IHr|e IHe|style c IHc|name|v];
    intros elist stack rest Hb Hg; cbn [bracketed] in Hb.
  - apply andb_prop in Hb as [Hb Hbr]. apply andb_prop in Hb as [Hb Hbl].
    apply andb_prop in Hb as [Hll Hlr].
    apply Nat.leb_le in Hll. apply Nat.ltb_lt in Hlr.
    rewrite level_binary in Hg.
    cbn [unparse spine]. rewrite <- app_assoc. cbn [app].
    rewrite IHl by (done || (eapply guards_mono; [done|lia])).
    assert (follows_operand (operator_token op)) as Hf
      by (destruct op; unfold follows_operand; simpl; tauto).
    assert (lookahead_level (operator_token op) = operator_level op) as Hla
      by (by destruct op).
    assert (run elist (spine l stack).2 (Some (spine l stack).1)
              (operator_token op :: unparse r ++ rest) =
            run elist (open_binary l op :: stack) None (unparse r ++ rest))
      as ->.
    { assert (reduce (spine l stack).1 (spine l stack).2 (operator_token op)
              = Some (l, stack)) as Hred.
      { rewrite reduce_spine by (done || lia).
        apply reduce_guarded; [done|]. by rewrite Hla. }
      destruct op; simpl in *; by rewrite Hred. }
    apply IHr; [done|simpl; lia].
  - apply andb_prop in Hb as [Hle Hb]. apply Nat.leb_le in Hle.
    cbn [unparse spine app run]. apply IHe; [done|simpl; lia].
  - apply andb_prop in Hb as [Hs Hb]. apply bool_decide_eq_true in Hs as ->.
    cbn [unparse spine app run]. rewrite <- app_assoc.
    rewrite IHc by done. cbn [app run].
    rewrite reduce_spine; [|unfold follows_operand; tauto|done|simpl; lia].
    done.
  - done.
  - by destruct v.
Qed.

Lemma reduce_whole e t :
  follows_operand t → bracketed e = true → lookahead_level t = 0 →
  reduce (spine e []).1 (spine e []).2 t = Some (e, []).
Proof. intros Ht Hb Hl. rewrite reduce_spine by (done || lia). done. Qed.

(** Completeness: a list of bracketed trees is what the parser returns
    on their tokens. *)
Lemma run_unparse_list es : ∀ elist,
  Forall (λ e, bracketed e = true) es → es ≠ [] →
  run elist [] None (unparse_list es) = Some (default [] elist ++ es).
Proof.
  induction es as [|e es IH]; intros elist Hb Hne; [done|].
  apply Forall_cons in Hb as [Hb Hbs].
  cbn [unparse_list]. rewrite run_unparse by done.
  destruct es as [|e' es].
  - cbn [run]. rewrite reduce_whole; [done|unfold follows_operand; tauto|done..].
  - cbn [run]. rewrite reduce_whole; [|unfold follows_operand; tauto|done..].
    rewrite IH by done. simpl. by rewrite <- app_assoc.
Qed.

Lemma reduce_sound stack : ∀ e t e' stack',
  follows_operand t → stack_ok stack → bracketed e = true →
  guards stack (level e) → lookahead_level t ≤ level e →
  reduce e stack t = Some (e', stack') →
  bracketed e' = true ∧ stack_ok stack' ∧ lookahead_level t ≤ level e' ∧
  guards stack' (lookahead_level t) ∧
  stack_tokens stack ++ unparse e = stack_tokens stack' ++ unparse e'.
Proof.
  induction stack as [|[lhs op| |] stack IH];
    intros e t e' stack' Ht Hs Hb Hg Hl Hr.
  - simpl in Hr. by simplify_eq.
  - rewrite reduce_binary in Hr by done.
    destruct Hs as (Hbl & Hll & Hgs & Hs). simpl in Hg.
    destruct (Nat.ltb_spec (operator_level op) (lookahead_level t)).
    + simplify_eq. simpl. done.
    + assert (bracketed (binary op lhs e) = true) as Hb'.
      { cbn [bracketed]. rewrite Hbl, Hb.
        apply Nat.leb_le in Hll as ->. by apply Nat.ltb_lt in Hg as ->. }
      apply IH in Hr as (? & ? & ? & ? & Htok);
        rewrite ?level_binary; [|done..|lia].
      split_and!; try done. rewrite <- Htok. simpl.
      by rewrite <- !app_assoc.
  - rewrite reduce_not in Hr by done. simpl in Hg, Hs.
    assert (bracketed (unary e) = true) as Hb'.
    { cbn [bracketed]. rewrite Hb. by apply Nat.leb_le in Hg as ->. }
    apply IH in Hr as (? & ? & ? & ? & Htok);
      [|done|done|done|apply guards_not|].
    + split_and!; try done. rewrite <- Htok. simpl. by rewrite <- !app_assoc.
    + destruct Ht as [->|[->|[->|[->|[->| ->]]]]]; simpl; lia.
  - simpl in Hr. simplify_eq. done.
Qed.

Lemma unparse_list_snoc l e :
  unparse_list (l ++ [e]) =
  flat_map (λ e, unparse e ++ [T_COMMA]) l ++ unparse e ++ [T_EOF].
Proof.
  induction l as [|x l IH]; [done|].
  cbn [app unparse_list flat_map]. rewrite IH.
  destruct l; simpl; by rewrite <- !app_assoc.
Qed.

(** Both sides are the same list up to the bracketing of [++]. *)
Ltac same_list :=
  repeat first [rewrite <- app_assoc | progress cbn [app]]; done.

Lemma run_sound ts : ∀ elist stack top res,
  stack_ok stack → top_ok top →
  Forall (λ e, bracketed e = true) (default [] elist) →
  run elist stack top ts = Some res →
  Forall (λ e, bracketed e = true) res ∧
  ∃ rest, list_tokens elist ++ stack_tokens stack ++ top_tokens top ++ ts
          = unparse_list res ++ rest.
Proof.
  induction ts as [|t ts IH]; intros elist stack top res Hs Ht Hl Hrun;
    [done|].
  destruct top as [e|]; cbn [run] in Hrun.
  - destruct Ht as [Hb He].
    assert (guards stack (level e)) as Hg
      by (rewrite He; eapply guards_mono; [apply guards_not|lia]).
    destruct t; try done.
    + (* AND *)
      cbn [binary_operator] in Hrun.
      destruct (reduce e stack T_AND) as [[lhs stack']|] eqn:Hr; [|done].
      apply reduce_sound in Hr as (? & ? & ? & ? & Htok);
        [|unfold follows_operand; tauto|done..|simpl; lia].
      apply IH in Hrun as [? [rest Hrest]]; [|done..].
      split; [done|]. exists rest. rewrite <- Hrest.
      cbn [stack_tokens top_tokens operator_token].
      rewrite !app_nil_l, <- !app_assoc. f_equal.
      rewrite (app_assoc (stack_tokens stack')), <- Htok.
      by rewrite <- !app_assoc.
    + (* OR *)
      cbn [binary_operator] in Hrun.
      destruct (reduce e stack T_OR) as [[lhs stack']|] eqn:Hr; [|done].
      apply reduce_sound in Hr as (? & ? & ? & ? & Htok);
        [|unfold follows_operand; tauto|done..|simpl; lia].
      apply IH in Hrun as [? [rest Hrest]]; [|done..].
      split; [done|]. exists rest. rewrite <- Hrest.
      cbn [stack_tokens top_tokens operator_token].
      rewrite !app_nil_l, <- !app_assoc. f_equal.
      rewrite (app_assoc (stack_tokens stack')), <- Htok.
      by rewrite <- !app_assoc.
    + (* XOR *)
      cbn [binary_operator] in Hrun.
      destruct (reduce e stack T_XOR) as [[lhs stack']|] eqn:Hr; [|done].
      apply reduce_sound in Hr as (? & ? & ? & ? & Htok);
        [|unfold follows_operand; tauto|done..|simpl; lia].
      apply IH in Hrun as [? [rest Hrest]]; [|done..].
      split; [done|]. exists rest. rewrite <- Hrest.
      cbn [stack_tokens top_tokens operator_token].
      rewrite !app_nil_l, <- !app_assoc. f_equal.
      rewrite (app_assoc (stack_tokens stack')), <- Htok.
      by rewrite <- !app_assoc.
    + (* ')' *)
      destruct (reduce e stack T_RPAREN) as [[c [|[]]]|] eqn:Hr; try done.
      apply reduce_sound in Hr as (? & ? & ? & ? & Htok);
        [|unfold follows_operand; tauto|done..|simpl; lia].
      apply IH in Hrun as [? [rest Hrest]]; [|done| |done].
      * split; [done|]. exists rest. rewrite <- Hrest.
        cbn [stack_tokens top_tokens unparse]. f_equal.
        rewrite (app_assoc (stack_tokens stack)), Htok.
        cbn [stack_tokens]. same_list.
      * split; [|done]. cbn [bracketed]. by rewrite bool_decide_eq_true_2.
    + (* ',' *)
      destruct (reduce e stack T_COMMA) as [[e' [|]]|] eqn:Hr; try done.
      apply reduce_sound in Hr as (? & ? & ? & ? & Htok);
        [|unfold follows_operand; tauto|done..|simpl; lia].
      apply IH in Hrun as [? [rest Hrest]]; [|done|done|].
      * split; [done|]. exists rest. rewrite <- Hrest.
        unfold list_tokens. cbn [default from_option id stack_tokens top_tokens].
        rewrite flat_map_app. cbn [flat_map].
        rewrite ?app_nil_r, <- ?app_assoc. f_equal.
        rewrite (app_assoc (stack_tokens stack)), Htok. done.
      * cbn [default]. apply Forall_app. split; [done|]. by apply Forall_singleton.
    + (* EOF *)
      destruct (reduce e stack T_EOF) as [[e' [|]]|] eqn:Hr; try done.
      apply reduce_sound in Hr as (? & ? & ? & ? & Htok);
        [|unfold follows_operand; tauto|done..|simpl; lia].
      simplify_eq. split.
      * apply Forall_app. split; [done|]. by apply Forall_singleton.
      * exists ts. rewrite unparse_list_snoc. unfold list_tokens.
        cbn [top_tokens]. rewrite <- ?app_assoc. f_equal.
        rewrite (app_assoc (stack_tokens stack)), Htok. same_list.
  - destruct t; try done.
    + apply IH in Hrun as [? [rest Hrest]]; [|done..].
      split; [done|]. exists rest. by rewrite <- Hrest.
    + apply IH in Hrun as [? [rest Hrest]]; [|done..].
      split; [done|]. exists rest. by rewrite <- Hrest.
    + apply IH in Hrun as [? [rest Hrest]]; [|done..].
      split; [done|]. exists rest. rewrite <- Hrest.
      cbn [stack_tokens top_tokens]. same_list.
    + apply IH in Hrun as [? [rest Hrest]]; [|done..].
      split; [done|]. exists rest. by rewrite <- Hrest.
    + apply IH in Hrun as [? [rest Hrest]]; [|done..].
      split; [done|]. exists rest. rewrite <- Hrest.
      cbn [stack_tokens top_tokens]. same_list.
    + destruct elist, stack; try done. simplify_eq.
      split; [done|]. by exists ts.
Qed.

(** The token list of an input ends in its only EOF. *)
Lemma word_token_not_EOF w : word_token w ≠ T_EOF.
Proof. unfold word_token. by repeat case_decide. Qed.

Lemma ends_in_EOF_cons t ts : t ≠ T_EOF → ends_in_EOF ts → ends_in_EOF (t :: ts).
Proof.
  intros Ht (ts' & -> & Hn). exists (t :: ts'). split; [done|].
  apply not_elem_of_cons. by split.
Qed.

Lemma flush_ends_in_EOF word k ts :
  (∀ ts, k = Some ts → ends_in_EOF ts) →
  flush word k = Some ts → ends_in_EOF ts.
Proof.
  intros Hk. destruct word as [w|]; simpl; [|by auto].
  destruct k as [ts0|]; simpl; [|done]. intros [= <-].
  apply ends_in_EOF_cons; [apply word_token_not_EOF|by auto].
Qed.

Lemma fmap_cons_ends_in_EOF t (k : option (list token)) ts :
  t ≠ T_EOF → (∀ ts, k = Some ts → ends_in_EOF ts) →
  cons t <$> k = Some ts → ends_in_EOF ts.
Proof.
  intros Ht Hk. destruct k as [ts0|]; simpl; [|done]. intros [= <-].
  apply ends_in_EOF_cons; by auto.
Qed.

Lemma lex_from_ends_in_EOF s : ∀ word ts,
  lex_from word s = Some ts → ends_in_EOF ts.
Proof.
  induction s as [|c s IH]; intros word ts.
  - simpl. apply flush_ends_in_EOF.
    intros ? [= <-]. exists []. split; [done|apply not_elem_of_nil].
  - cbn [lex_from]. cbv zeta beta.
    destruct word as [w|];
      [destruct (is_word c); [by apply IH|apply flush_ends_in_EOF]
      |revert ts];
      intros ts0;
      (destruct (is_space c); [apply IH|]);
      (destruct (is_alpha c); [apply IH|]);
      repeat case_decide; try done;
      apply fmap_cons_ends_in_EOF; try done; apply IH.
Qed.

Lemma unparse_no_EOF e : T_EOF ∉ unparse e.
Proof.
  induction e as [op l IHl r IHr|e IHe|style c IHc|name|v]; simpl.
  - rewrite elem_of_app, elem_of_cons.
    intros [?|[?|?]]; [done| |done]. by destruct op.
  - rewrite elem_of_cons. by intros [?|?].
  - rewrite elem_of_cons, elem_of_app, list_elem_of_singleton.
    by intros [?|[?|?]].
  - by rewrite list_elem_of_singleton.
  - destruct v; by rewrite list_elem_of_singleton.
Qed.

Lemma unparse_list_ends_in_EOF es : ends_in_EOF (unparse_list es).
Proof.
  induction es as [|e es IH];
    [exists []; split; [done|apply not_elem_of_nil]|].
  cbn [unparse_list]. destruct es as [|e' es].
  - exists (unparse e). split; [done|apply unparse_no_EOF].
  - destruct IH as (ts' & -> & Hn). exists (unparse e ++ T_COMMA :: ts').
    split; [same_list|].
    rewrite elem_of_app, elem_of_cons. pose proof (unparse_no_EOF e).
    by intros [?|[?|?]].
Qed.

Lemma first_EOF (l1 l2 r : list token) :
  T_EOF ∉ l1 → T_EOF ∉ l2 → l1 ++ [T_EOF] = (l2 ++ [T_EOF]) ++ r → r = [].
Proof.
  revert l2. induction l1 as [|x l1 IH]; intros [|y l2] H1 H2 Heq;
    simpl in Heq; simplify_eq.
  - done.
  - exfalso. apply H2. by left.
  - exfalso. apply H1. by left.
  - eapply IH; [| |done].
    + by apply not_elem_of_cons in H1 as [_ ?].
    + by apply not_elem_of_cons in H2 as [_ ?].
Qed.

(** The levels of [level] are those the [%left] lines give. *)
Lemma levels_declared :
  production_precedence "AND" = 1 ∧ production_precedence "OR" = 2 ∧
  production_precedence "XOR" = 3 ∧ production_precedence "NOT" = 4.
Proof. done. Qed.

(** C1 (as amended).  The parser returns an expression list exactly when
    that list is the reading of the input's tokens, in order, in which
    every binary operator associates to the left and the operators sit
    on the levels the [%left] lines give them, one level per line: AND
    loosest, then OR, then XOR, and NOT tightest.  A left operand is at
    the operator's level or tighter, a right operand strictly tighter. *)
Theorem parse_bracketing (input : string) (es : list RawNode) :
  parse input = Some es ↔
  lex input = Some (unparse_list es) ∧
  Forall (λ e, bracketed e = true) es.
Proof.
  unfold parse. split.
  - destruct (lex input) as [ts|] eqn:Hlex; [|done]. simpl. intros Hrun.
    apply run_sound in Hrun as [Hb [rest Hrest]]; [|done..].
    split; [|done]. f_equal.
    apply lex_from_ends_in_EOF in Hlex as (ts' & -> & Hn).
    destruct (unparse_list_ends_in_EOF es) as (pre & Hpre & Hn').
    simpl in Hrest. rewrite Hpre in Hrest |- *.
    apply first_EOF in Hrest as Hnil; [|done..]. subst rest.
    by rewrite app_nil_r in Hrest.
  - intros [-> Hb]. simpl. destruct es as [|e es]; [done|].
    by rewrite run_unparse_list.
Qed.

(** The theorem at work on [a or b and c]. *)
Lemma parse_bracketing_witness :
  parse "a or b and c" =
  Some [binary AND (binary OR (identifier "a") (identifier "b"))
                   (identifier "c")].
Proof.
  apply (proj2 (parse_bracketing _ _)). split; [reflexivity|].
  repeat constructor.
Defined.

(** C1 as stated fails: AND does not bind tighter than OR, and OR and
    XOR are not on one level. *)
Lemma parse_precedence_counterexample :
  parse "a or b and c" ≠
    Some [binary OR (identifier "a")
                    (binary AND (identifier "b") (identifier "c"))] ∧
  parse "a or b and c" =
    Some [binary AND (binary OR (identifier "a") (identifier "b"))
                     (identifier "c")] ∧
  parse "a or b xor c" ≠
    Some [binary XOR (binary OR (identifier "a") (identifier "b"))
                     (identifier "c")] ∧
  parse "a or b xor c" =
    Some [binary OR (identifier "a")
                    (binary XOR (identifier "b") (identifier "c"))].
Proof. split_and!; by vm_compute. Qed.

Lemma lex_blank s : blank s = true → lex s = Some [T_EOF].
Proof.
  unfold lex. induction s as [|c s IH]; [done|].
  cbn [blank lex_from]. intros [Hc Hs]%andb_prop. rewrite Hc. by apply IH.
Qed.

(** The empty input is read as the token EOF alone and parses, by the
    production [expressions : EOF], to the empty expression list, not to
    an error; so does a text of white space only. *)
Theorem parse_empty :
  lex EmptyString = Some [T_EOF] ∧
  parse EmptyString = Some [] ∧
  ∀ s, blank s = true → parse s = Some [].
Proof.
  split_and!; [done..|].
  intros s Hs. unfold parse. by rewrite lex_blank.
Qed.

End GrammarFacts.

(** ** Immutable sets: members and iteration order *)

Module SetFacts.
Import Immutable.
Local Open Scope nat_scope.
Local Open Scope list_scope.

Section FirstSeen.
Context {A : Type} `{EqDecision A}.
Implicit Types (l seen : list A).

Lemma first_seen_from_ext l : ∀ seen seen',
  (∀ x, x ∈ seen ↔ x ∈ seen') →
  first_seen_from seen l = first_seen_from seen' l.
Proof.
  induction l as [|x l IH]; intros seen seen' Hext; [done|].
  cbn [first_seen_from].
  rewrite (bool_decide_ext (x ∈ seen) (x ∈ seen')) by done.
  destruct (bool_decide (x ∈ seen')); [by apply IH|].
  f_equal. apply IH. intros y. rewrite !elem_of_cons, Hext. done.
Qed.

Lemma elem_of_first_seen_from l : ∀ seen x,
  x ∈ first_seen_from seen l ↔ x ∈ l ∧ x ∉ seen.
Proof.
  induction l as [|y l IH]; intros seen x; cbn [first_seen_from].
  - rewrite elem_of_nil. tauto.
  - case_bool_decide as Hy.
    + rewrite IH, elem_of_cons. split; [tauto|].
      intros [[->|?] ?]; tauto.
    + rewrite !elem_of_cons, IH, elem_of_cons.
      destruct (decide (x = y)) as [->|]; tauto.
Qed.

Lemma NoDup_first_seen_from l : ∀ seen, NoDup (first_seen_from seen l).
Proof.
  induction l as [|y l IH]; intros seen; cbn [first_seen_from].
  - constructor.
  - case_bool_decide; [apply IH|].
    constructor; [|apply IH].
    rewrite elem_of_first_seen_from, elem_of_cons. tauto.
Qed.

Lemma first_seen_from_app l : ∀ seen r,
  first_seen_from seen (l ++ r) =
  first_seen_from seen l ++ first_seen_from (l ++ seen) r.
Proof.
  induction l as [|x l IH]; intros seen r; [done|].
  cbn [app first_seen_from]. case_bool_decide as Hx.
  - rewrite IH. f_equal. apply first_seen_from_ext. intros y.
    rewrite elem_of_cons, !elem_of_app.
    split; [tauto|]. intros [->|[?|?]]; tauto.
  - cbn [app]. rewrite IH. do 2 f_equal. apply first_seen_from_ext.
    intros y. rewrite !elem_of_cons, !elem_of_app, elem_of_cons. tauto.
Qed.

(** Dropping repetitions inside a part of the list changes nothing. *)
Lemma first_seen_from_inner l : ∀ seen seen' r,
  (∀ x, x ∈ seen' → x ∈ seen) →
  first_seen_from seen (first_seen_from seen' l ++ r) =
  first_seen_from seen (l ++ r).
Proof.
  induction l as [|x l IH]; intros seen seen' r Hsub; [done|].
  cbn [first_seen_from app]. case_bool_decide as Hx'.
  - rewrite bool_decide_eq_true_2 by auto. by apply IH.
  - cbn [first_seen_from app]. case_bool_decide as Hx.
    + apply IH. intros y. rewrite elem_of_cons. intros [->|?]; auto.
    + f_equal. apply IH. intros y. rewrite !elem_of_cons. intros [->|?]; auto.
Qed.

Lemma first_seen_from_flat_map {B} (f : B → list A) (bs : list B) : ∀ seen,
  first_seen_from seen (flat_map (λ b, first_seen (f b)) bs) =
  first_seen_from seen (flat_map f bs).
Proof.
  induction bs as [|b bs IH]; intros seen; [done|].
  cbn [flat_map]. unfold first_seen at 1.
  rewrite first_seen_from_inner by (intros x; by rewrite elem_of_nil).
  rewrite !first_seen_from_app. f_equal. apply IH.
Qed.

End FirstSeen.

(** Updating the trie adds the key and keeps the members apart. *)
Lemma elem_of_trie_update entries key x :
  x ∈ trie_update entries key ↔ x = key ∨ x ∈ entries.
Proof.
  induction entries as [|k entries IH]; cbn [trie_update].
  - rewrite list_elem_of_singleton, elem_of_nil. tauto.
  - case_decide as Hk; [subst; rewrite elem_of_cons; tauto|].
    destruct (_ <? _)%Z; rewrite !elem_of_cons; [tauto|].
    rewrite IH. tauto.
Qed.

Lemma trie_update_ok entries key :
  trie_ok entries → trie_ok (trie_update entries key).
Proof.
  intros [Hs Hnd]. induction entries as [|k entries IH]; cbn [trie_update].
  - split; [repeat constructor|apply NoDup_singleton].
  - apply StronglySorted_inv in Hs as [Hs Hk].
    apply NoDup_cons in Hnd as [Hnk Hnd].
    rewrite Forall_forall in Hk.
    case_decide as Hkey; [subst; split; [by constructor; [|apply Forall_forall]|by constructor]|].
    fold (index key) (index k).
    destruct (Z.ltb_spec (index key) (index k)) as [Hlt|Hge].
    + split.
      * constructor; [by constructor; [|apply Forall_forall]|].
        apply Forall_forall. intros x [->|Hx]%elem_of_cons; [lia|].
        specialize (Hk x Hx). simpl in Hk. lia.
      * constructor; [|by constructor].
        intros [->|Hx]%elem_of_cons; [done|].
        specialize (Hk key Hx). simpl in Hk. lia.
    + destruct (IH Hs Hnd) as [Hs' Hnd']. split.
      * constructor; [done|]. apply Forall_forall.
        intros x [->|Hx]%elem_of_trie_update; [done|by apply Hk].
      * constructor; [|done].
        intros [?|?]%elem_of_trie_update; by subst.
Qed.

Lemma createNodes_ok entries key : trie_ok (createNodes entries key).
Proof.
  unfold createNodes.
  assert (trie_ok [key]) as Hok
    by (split; [repeat constructor|apply NoDup_singleton]).
  revert Hok. generalize [key]. induction entries as [|k entries IH];
    intros t Hok; simpl; [done|].
  apply IH. by apply trie_update_ok.
Qed.

Lemma elem_of_createNodes entries key x :
  x ∈ createNodes entries key ↔ x = key ∨ x ∈ entries.
Proof.
  unfold createNodes.
  assert (∀ t, x ∈ fold_left trie_update entries t ↔ x ∈ t ∨ x ∈ entries) as H.
  { induction entries as [|k entries IH]; intros t; simpl.
    - rewrite elem_of_nil. tauto.
    - rewrite IH, elem_of_trie_update, elem_of_cons. tauto. }
  rewrite H, list_elem_of_singleton. tauto.
Qed.

Lemma add_ok set key : set_ok set → set_ok (add set key).
Proof.
  destruct set as [entries|entries]; cbn [add set_ok]; intros Hok.
  - case_bool_decide as Hin; [done|].
    destruct (MAX_ARRAY_MAP_SIZE <=? length entries); cbn [set_ok];
      [apply createNodes_ok|].
    apply NoDup_app. split_and!; [done| |apply NoDup_singleton].
    intros x Hx ->%list_elem_of_singleton. done.
  - by apply trie_update_ok.
Qed.

Lemma elem_of_add set key x :
  x ∈ toList (add set key) ↔ x = key ∨ x ∈ toList set.
Proof.
  destruct set as [entries|entries]; cbn [add toList].
  - case_bool_decide as Hin; cbn [toList].
    + split; [tauto|]. intros [->|?]; done.
    + destruct (MAX_ARRAY_MAP_SIZE <=? length entries); cbn [toList];
        [apply elem_of_createNodes|].
      rewrite elem_of_app, list_elem_of_singleton. tauto.
  - apply elem_of_trie_update.
Qed.

Lemma fold_add_ok l : ∀ set,
  set_ok set →
  set_ok (fold_left add l set) ∧
  ∀ x, x ∈ toList (fold_left add l set) ↔ x ∈ l ∨ x ∈ toList set.
Proof.
  induction l as [|k l IH]; intros set Hok; simpl.
  - split; [done|]. intros x. rewrite elem_of_nil. tauto.
  - destruct (IH (add set k)) as [Hok' Hel]; [by apply add_ok|].
    split; [done|]. intros x. rewrite Hel, elem_of_add, elem_of_cons. tauto.
Qed.

Lemma set_ok_NoDup set : set_ok set → NoDup (toList set).
Proof. destruct set; simpl; [done|by intros []]. Qed.

(** A set lists the members of the list it is made from, each once. *)
Lemma toSet_members (l : list string) :
  NoDup (toList (toSet l)) ∧ ∀ x, x ∈ toList (toSet l) ↔ x ∈ l.
Proof.
  destruct (fold_add_ok l (ArrayMapNode [])) as [Hok Hel]; [constructor|].
  split; [by apply set_ok_NoDup|].
  intros x. unfold toSet. rewrite Hel. simpl. rewrite elem_of_nil. tauto.
Qed.

(** Up to [MAX_ARRAY_MAP_SIZE] members the set is still an array and
    lists them in the order they were first added. *)
Lemma fold_add_small l : ∀ entries,
  length (entries ++ first_seen_from entries l) ≤ MAX_ARRAY_MAP_SIZE →
  fold_left add l (ArrayMapNode entries) =
  ArrayMapNode (entries ++ first_seen_from entries l).
Proof.
  induction l as [|k l IH]; intros entries Hlen;
    cbn [fold_left first_seen_from add].
  - by rewrite app_nil_r.
  - cbn [first_seen_from] in Hlen. case_bool_decide as Hin; [by apply IH|].
    rewrite length_app in Hlen. cbn [length] in Hlen.
    destruct (Nat.leb_spec MAX_ARRAY_MAP_SIZE (length entries)); [lia|].
    assert (first_seen_from (k :: entries) l =
            first_seen_from (entries ++ [k]) l) as Heq.
    { apply first_seen_from_ext. intros x.
      rewrite elem_of_cons, elem_of_app, list_elem_of_singleton. tauto. }
    rewrite Heq in Hlen |- *.
    rewrite IH; [by rewrite <- app_assoc|].
    rewrite !length_app. simpl. lia.
Qed.

Lemma toSet_small (l : list string) :
  length (first_seen l) ≤ MAX_ARRAY_MAP_SIZE →
  toList (toSet l) = first_seen l.
Proof.
  intros Hlen. unfold toSet. by rewrite fold_add_small.
Qed.

End SetFacts.

(** ** The language registry: auto detection *)

Module RegistryFacts.
Import Model Samples.
Local Open Scope nat_scope.
Local Open Scope list_scope.

Lemma furthest_chosen failures : ∀ c,
  ∃ r, furthest failures (Some c) = Some r ∧
    (failure_offset c ≤ failure_offset r)%N ∧
    (∀ f, f ∈ failures → (failure_offset f ≤ failure_offset r)%N) ∧
    (r = c ∨
     ∃ k, failures !! k = Some r ∧
       (failure_offset c < failure_offset r)%N ∧
       ∀ j f, j < k → failures !! j = Some f →
         (failure_offset f < failure_offset r)%N).
Proof.
  induction failures as [|f failures IH]; intros c; cbn [furthest].
  - exists c. split_and!; [done|lia| |by left].
    intros f. by rewrite elem_of_nil.
  - fold (failure_offset c) (failure_offset f).
    destruct (N.ltb_spec (failure_offset c) (failure_offset f)) as [Hlt|Hge].
    + destruct (IH f) as (r & Hr & Hfr & Hall & Hwhich). exists r.
      split_and!; [done|lia| |].
      * intros f' [->|?]%elem_of_cons; auto.
      * right. destruct Hwhich as [->|(k & Hk & Hlt' & Hbefore)].
        -- exists 0. split_and!; [done|done|]. intros; lia.
        -- exists (S k). split_and!; [done|lia|].
           intros [|j] f' Hj Hf'; simpl in Hf'; [simplify_eq; lia|].
           apply (Hbefore j); [lia|done].
    + destruct (IH c) as (r & Hr & Hcr & Hall & Hwhich). exists r.
      split_and!; [done|done| |].
      * intros f' [->|?]%elem_of_cons; [lia|auto].
      * destruct Hwhich as [->|(k & Hk & Hlt' & Hbefore)]; [by left|].
        right. exists (S k). split_and!; [done|done|].
        intros [|j] f' Hj Hf'; simpl in Hf'; [simplify_eq; lia|].
        apply (Hbefore j); [lia|done].
Qed.

(** Among a non-empty list of failures the one chosen has the largest
    offset, and is the first to have it. *)
Lemma furthest_first_maximum f failures :
  ∃ k r, (f :: failures) !! k = Some r ∧
    furthest (f :: failures) None = Some r ∧
    (∀ f', f' ∈ f :: failures → (failure_offset f' ≤ failure_offset r)%N) ∧
    (∀ j f', j < k → (f :: failures) !! j = Some f' →
       (failure_offset f' < failure_offset r)%N).
Proof.
  cbn [furthest].
  destruct (furthest_chosen failures f) as (r & Hr & Hfr & Hall & Hwhich).
  destruct Hwhich as [->|(k & Hk & Hlt & Hbefore)].
  - exists 0, f. split_and!; [done|done| |intros; lia].
    intros f' [->|?]%elem_of_cons; [lia|auto].
  - exists (S k), r. split_and!; [done|done| |].
    + intros f' [->|?]%elem_of_cons; [lia|auto].
    + intros [|j] f' Hj Hf'; simpl in Hf'; [simplify_eq; lia|].
      apply (Hbefore j); [lia|done].
Qed.

(** The loop over languages that all fail makes that choice. *)
Lemma autoLang_loop_failures str langs : ∀ failures chosen r,
  Forall2 (λ l f, parse l str = inl (ThrownSyntaxError f.2) ∧ name l = f.1)
    langs failures →
  furthest failures chosen = Some r →
  autoLang_loop langs str (chosen_error chosen) (chosen_name chosen) =
  inl (ThrownParseError
         {| pe_lang := "auto"; pe_string := str;
            pe_message := se_message r.2;
            pe_location := Some (se_location r.2);
            pe_detected := Some r.1 |}).
Proof.
  induction langs as [|l langs IH]; intros failures chosen r Hall Hr.
  - apply Forall2_nil_inv_l in Hall as ->. simpl in Hr. subst chosen. done.
  - apply Forall2_cons_inv_l in Hall as (f & failures' & [Hl Hn] & Hall & ->).
    cbn [autoLang_loop furthest] in *. rewrite Hl, Hn.
    destruct chosen as [c|]; cbn [chosen_error chosen_name fmap option_fmap option_map location] in *.
    + destruct (_ <? _)%N; by apply (IH failures' (Some _)).
    + by apply (IH failures' (Some f)).
Qed.

(** The loop returns the result of the first language that parses. *)
Lemma autoLang_loop_success str pre : ∀ failures chosen lang post result,
  Forall2 (λ l f, parse l str = inl (ThrownSyntaxError f.2) ∧ name l = f.1)
    pre failures →
  parse lang str = inr result →
  autoLang_loop (pre ++ lang :: post) str
    (chosen_error chosen) (chosen_name chosen) =
  inr {| pr_parsed := pr_parsed result; pr_lang := "auto";
         pr_detected := Some (name lang) |}.
Proof.
  induction pre as [|l pre IH]; intros failures chosen lang post result Hall Hok.
  - cbn [app autoLang_loop]. by rewrite Hok.
  - apply Forall2_cons_inv_l in Hall as (f & failures' & [Hl Hn] & Hall & ->).
    cbn [app autoLang_loop]. rewrite Hl, Hn.
    destruct chosen as [c|]; cbn [chosen_error chosen_name fmap option_fmap option_map location].
    + destruct (_ <? _)%N; by apply (IH failures' (Some _)).
    + by apply (IH failures' (Some f)).
Qed.

Section AutoDetect.

Variables cParser latexParser mathParser pythonParser
  : string → SyntaxError + list RawNode.

Abbreviation allLanguages :=
  (allLanguages cParser latexParser mathParser pythonParser).
Abbreviation autoLang := (autoLang cParser latexParser mathParser pythonParser).
Abbreviation model_parse :=
  (model_parse cParser latexParser mathParser pythonParser).

Lemma concrete_throws lang parser str e :
  concrete lang parser str = inl e →
  ∃ se, e = ThrownSyntaxError se.
Proof. unfold concrete. destruct (parser str); intros [= <-]; eauto. Qed.

Lemma allLanguages_throw str l e :
  l ∈ allLanguages → parse l str = inl e →
  ∃ se, e = ThrownSyntaxError se.
Proof.
  unfold Model.allLanguages. rewrite !elem_of_cons, elem_of_nil.
  intros [->|[->|[->|[->|[]]]]]; apply concrete_throws.
Qed.

(** A prefix of the languages that all fail, with its failures. *)
Lemma failing_prefix str k :
  (∀ j l, j < k → allLanguages !! j = Some l → ∃ e, parse l str = inl e) →
  ∃ failures,
    Forall2 (λ l f, parse l str = inl (ThrownSyntaxError f.2) ∧ name l = f.1)
      (take k allLanguages) failures.
Proof.
  generalize allLanguages_throw. generalize allLanguages. intros langs.
  revert k. induction langs as [|l langs IH]; intros k Hthrow Hfail.
  - exists []. rewrite take_nil. constructor.
  - destruct k as [|k]; [exists []; constructor|].
    destruct (Hfail 0 l) as [e He]; [lia|done|].
    destruct (Hthrow str l e) as [se ->]; [by left|done|].
    destruct (IH k) as [failures Hall].
    + intros str' l' e' Hl'. apply Hthrow. by right.
    + intros j l' Hj Hl'. apply (Hfail (S j)); [lia|done].
    + exists ((name l, se) :: failures). by constructor.
Qed.

(** C2.  With notation [auto] the grammars are tried in the order C,
    Python, Latex, Math, and the result is that of the first one that
    parses: its nodes, [lang] equal to ['auto'] and [detected] equal to
    the name of that grammar. *)
Theorem auto_first_success (str : string) (k : nat) (lang : language)
    (result : ParseResult) (showSubExpressions : bool) :
  allLanguages !! k = Some lang →
  (∀ j l, j < k → allLanguages !! j = Some l → ∃ e, parse l str = inl e) →
  parse lang str = inr result →
  name <$> allLanguages = ["C"; "Python"; "Latex"; "Math"]%string ∧
  parse autoLang str =
    inr {| pr_parsed := pr_parsed result; pr_lang := "auto";
           pr_detected := Some (name lang) |} ∧
  model_parse {| in_string := str; in_lang := "auto";
                 in_showSubExpressions := showSubExpressions |} =
    inr {| p_lang := "auto"; p_detected := Some (name lang);
           p_string := str; p_showSubExpressions := showSubExpressions;
           p_expressions := expressionFromJson <$> pr_parsed result |}.
Proof.
  intros Hk Hfail Hok. split; [done|].
  assert (parse autoLang str =
    inr {| pr_parsed := pr_parsed result; pr_lang := "auto";
           pr_detected := Some (name lang) |}) as Hauto.
  { destruct (failing_prefix str k Hfail) as [failures Hall].
    cbn [parse Model.autoLang].
    rewrite <- (take_drop_middle _ _ _ Hk).
    by apply (autoLang_loop_success str _ failures None). }
  split; [done|].
  unfold Model.model_parse. cbn [in_lang in_string in_showSubExpressions].
  change (languages cParser latexParser mathParser pythonParser "auto")
    with (Some autoLang).
  cbv beta iota zeta. by rewrite Hauto.
Qed.

(** C3.  When the four grammars fail, auto detection fails with the
    message and location of the failure that lies furthest into the
    text and with [detected] equal to the name of its grammar; among
    failures at the same furthest offset the first in the order C,
    Python, Latex, Math is the one reported. *)
Theorem auto_furthest_failure (str : string) (eC ePython eLatex eMath : SyntaxError)
    (showSubExpressions : bool) :
  cParser str = inl eC →
  pythonParser str = inl ePython →
  latexParser str = inl eLatex →
  mathParser str = inl eMath →
  let failures :=
    [("C", eC); ("Python", ePython); ("Latex", eLatex); ("Math", eMath)]%string in
  ∃ k detected e,
    failures !! k = Some (detected, e) ∧
    (∀ f, f ∈ failures →
       (offset (start (se_location f.2)) ≤ offset (start (se_location e)))%N) ∧
    (∀ j f, j < k → failures !! j = Some f →
       (offset (start (se_location f.2)) < offset (start (se_location e)))%N) ∧
    parse autoLang str =
      inl (ThrownParseError
             {| pe_lang := "auto"; pe_string := str;
                pe_message := se_message e;
                pe_location := Some (se_location e);
                pe_detected := Some detected |}) ∧
    model_parse {| in_string := str; in_lang := "auto";
                   in_showSubExpressions := showSubExpressions |} =
      inl {| pe_lang := "auto"; pe_string := str;
             pe_message := se_message e;
             pe_location := Some (se_location e);
             pe_detected := Some detected |}.
Proof.
  intros HC HPython HLatex HMath failures.
  destruct (furthest_first_maximum ("C"%string, eC) (tail failures))
    as (k & [detected e] & Hk & Hchoice & Hmax & Hfirst).
  exists k, detected, e.
  assert (parse autoLang str =
      inl (ThrownParseError
             {| pe_lang := "auto"; pe_string := str;
                pe_message := se_message e;
                pe_location := Some (se_location e);
                pe_detected := Some detected |})) as Hauto.
  { apply (autoLang_loop_failures str _ failures None (detected, e));
      [|done].
    unfold Model.allLanguages, failures.
    repeat constructor; cbn [parse cLang pythonLang latexLang mathLang];
      unfold concrete; by rewrite ?HC, ?HPython, ?HLatex, ?HMath. }
  split_and!; [done|done|done|done|].
  unfold Model.model_parse. cbn [in_lang in_string in_showSubExpressions].
  change (languages cParser latexParser mathParser pythonParser "auto")
    with (Some autoLang).
  cbv beta iota zeta. by rewrite Hauto.
Qed.

End AutoDetect.

(** The theorems at work: C rejects the text and Python reads it; and
    all four reject it, Python and Latex furthest in. *)
Lemma auto_first_success_witness :
  parse (autoLang (rejecting 2) (rejecting 0) accepting accepting)
    "a and b" =
  inr {| pr_parsed := [binary AND (identifier "a") (identifier "b")];
         pr_lang := "auto"; pr_detected := Some "Python"%string |}.
Proof.
  destruct (auto_first_success (rejecting 2) (rejecting 0) accepting accepting
              "a and b" 1 (pythonLang accepting)
              {| pr_lang := "python";
                 pr_parsed := [binary AND (identifier "a") (identifier "b")];
                 pr_detected := None |}
              true) as (_ & Hauto & _).
  - reflexivity.
  - intros [|j] l Hj Hl; [|lia]. injection Hl as <-. eexists. reflexivity.
  - reflexivity.
  - exact Hauto.
Defined.

Lemma auto_furthest_failure_witness :
  ∃ detected e,
    parse (autoLang (rejecting 2) (rejecting 5) (rejecting 1) (rejecting 5))
      "a &" =
    inl (ThrownParseError
           {| pe_lang := "auto"; pe_string := "a &";
              pe_message := se_message e;
              pe_location := Some (se_location e);
              pe_detected := Some detected |}).
Proof.
  destruct (auto_furthest_failure
              (rejecting 2) (rejecting 5) (rejecting 1) (rejecting 5)
              "a &" (failure 2) (failure 5) (failure 5) (failure 1) true
              eq_refl eq_refl eq_refl eq_refl)
    as (k & detected & e & _ & _ & _ & Hauto & _).
  exists detected, e. exact Hauto.
Defined.

End RegistryFacts.

(** ** Rows, bits and maps *)

Module EvaluationFacts.
Import Model.
Local Open Scope Z_scope.
Local Open Scope list_scope.

Lemma ToInt32_range z : - 2 ^ 31 ≤ Immutable.ToInt32 z < 2 ^ 31.
Proof.
  unfold Immutable.ToInt32.
  pose proof (Z.mod_pos_bound (z + 2 ^ 31) (2 ^ 32)). lia.
Qed.

Lemma ToInt32_testbit z i :
  0 ≤ i < 32 → Z.testbit (Immutable.ToInt32 z) i = Z.testbit z i.
Proof.
  intros Hi. unfold Immutable.ToInt32.
  rewrite <- (Z.mod_pow2_bits_low (_ - _) 32 i) by lia.
  rewrite <- (Z.mod_pow2_bits_low z 32 i) by lia.
  f_equal.
  rewrite Zminus_mod, Zmod_mod, <- Zminus_mod.
  f_equal. lia.
Qed.

Lemma land_pow2 x i :
  0 ≤ i → Z.land (2 ^ i) x = if Z.testbit x i then 2 ^ i else 0.
Proof.
  intros Hi. apply Z.bits_inj'. intros n Hn.
  rewrite Z.land_spec, Z.pow2_bits_eqb by lia.
  destruct (Z.eqb_spec i n) as [->|Hne].
  - destruct (Z.testbit x n); [by rewrite Z.pow2_bits_true|by rewrite Z.bits_0].
  - simpl. destruct (Z.testbit x i); [|by rewrite Z.bits_0].
    by rewrite Z.pow2_bits_false.
Qed.

Lemma ToInt32_small z : - 2 ^ 31 ≤ z < 2 ^ 31 → Immutable.ToInt32 z = z.
Proof.
  intros Hz. unfold Immutable.ToInt32. rewrite Z.mod_small; lia.
Qed.

Lemma ToInt32_pow2_high i : 32 ≤ i → Immutable.ToInt32 (2 ^ i) = 0.
Proof.
  intros Hi. unfold Immutable.ToInt32.
  replace i with ((i - 32) + 32) by lia.
  rewrite Z.pow_add_r by lia.
  rewrite Z.add_comm, Z.mod_add by lia. done.
Qed.

Lemma land_sign x :
  - 2 ^ 31 ≤ x < 2 ^ 31 →
  negb (Z.land (- 2 ^ 31) x =? 0) = Z.testbit x 31.
Proof.
  intros Hx.
  change (- 2 ^ 31) with (Z.lnot (Z.ones 31)).
  rewrite Z.land_comm, <- Z.ldiff_land, Z.ldiff_ones_r by lia.
  rewrite Z.testbit_odd, !Z.shiftr_div_pow2, Z.shiftl_mul_pow2 by lia.
  assert (x `div` 2 ^ 31 = 0 ∨ x `div` 2 ^ 31 = -1) as [->| ->]; [|done..].
  destruct (Z.ltb_spec x 0).
  - right. symmetry. apply (Z.div_unique x (2 ^ 31) (-1) (x + 2 ^ 31)); lia.
  - left. apply Z.div_small. lia.
Qed.

(** [!!(Math.pow(2, i) & selectedRow)] is bit [i] of the row for the
    first 32 identifiers, and [false] from the 33rd on. *)
Lemma bit_testbit (i : nat) (row : Z) :
  bit i row = if (i <? 32)%nat then Z.testbit row (Z.of_nat i) else false.
Proof.
  unfold bit. destruct (Nat.ltb_spec i 32) as [Hlt|Hge].
  - rewrite <- (ToInt32_testbit row) by lia.
    pose proof (ToInt32_range row) as Hr.
    generalize dependent (Immutable.ToInt32 row). intros x Hx.
    destruct (decide (i = 31)%nat) as [->|Hne].
    + change (Immutable.ToInt32 (2 ^ Z.of_nat 31)) with (- 2 ^ 31).
      change (Z.of_nat 31) with 31. by apply land_sign.
    + assert (0 ≤ Z.of_nat i ≤ 30) as Hi by lia.
      generalize dependent (Z.of_nat i). intros z Hz.
      assert (0 < 2 ^ z ≤ 2 ^ 30) as Hpow
        by (split; [apply Z.pow_pos_nonneg; lia|apply Z.pow_le_mono_r; lia]).
      rewrite ToInt32_small by lia.
      rewrite land_pow2 by lia.
      destruct (Z.testbit x z); [|done].
      destruct (Z.eqb_spec (2 ^ z) 0); [lia|done].
  - rewrite ToInt32_pow2_high by lia. done.
Qed.

(** Lookups in [I.Map(pairs)]. *)
Section MapFacts.
Context {K V : Type} `{Countable K}.
Implicit Types (pairs : list (K * V)).

Lemma Map_list_to_map pairs :
  Immutable.Map pairs = list_to_map (reverse pairs).
Proof.
  unfold Immutable.Map. induction pairs as [|kv pairs IH] using rev_ind;
    [done|].
  rewrite fold_left_app, reverse_snoc. simpl. by rewrite IH.
Qed.

Lemma Map_lookup_Some pairs k v :
  (∀ y, (k, y) ∈ pairs → v = y) → (k, v) ∈ pairs →
  Immutable.Map pairs !! k = Some v.
Proof.
  intros Hfun Hin. rewrite Map_list_to_map.
  apply elem_of_list_to_map_1'.
  - intros y. rewrite elem_of_reverse. apply Hfun.
  - by rewrite elem_of_reverse.
Qed.

Lemma Map_lookup_inv pairs k v :
  Immutable.Map pairs !! k = Some v → (k, v) ∈ pairs.
Proof.
  rewrite Map_list_to_map. intros Hk%elem_of_list_to_map_2.
  by rewrite elem_of_reverse in Hk.
Qed.

End MapFacts.

(** The assignment of a row. *)
Lemma identifierMap_pairs (identifiers : list string) row name v :
  (name, v) ∈ imap (λ i name, (name, bit i row)) identifiers ↔
  ∃ i, identifiers !! i = Some name ∧ v = bit i row.
Proof.
  rewrite list_elem_of_lookup. setoid_rewrite list_lookup_imap.
  split.
  - intros [i Hi]. exists i. destruct (identifiers !! i); by simplify_eq/=.
  - intros (i & Hi & ->). exists i. by rewrite Hi.
Qed.

Lemma identifierMap_lookup (identifiers : list string) row i name :
  NoDup identifiers → identifiers !! i = Some name →
  identifierMap identifiers row !! name = Some (bit i row).
Proof.
  intros Hnd Hi. apply Map_lookup_Some.
  - intros y (j & Hj & ->)%identifierMap_pairs.
    by rewrite (NoDup_lookup _ _ _ _ Hnd Hi Hj).
  - apply identifierMap_pairs. eauto.
Qed.

Lemma identifierMap_lookup_inv (identifiers : list string) row name v :
  identifierMap identifiers row !! name = Some v → name ∈ identifiers.
Proof.
  intros (i & Hi & _)%Map_lookup_inv%identifierMap_pairs.
  by eapply list_elem_of_lookup_2.
Qed.

(** An expression whose names all have a value has one itself. *)
Lemma evaluateExpression_total e (assignment : gmap string bool) :
  (∀ name, name ∈ names e → is_Some (assignment !! name)) →
  is_Some (evaluateExpression e assignment).
Proof.
  induction e as [op l IHl r IHr|e IHe|c IHc|name|v]; intros Hnames; simpl.
  - destruct IHl as [vl ->];
      [intros n Hn; apply Hnames; simpl; rewrite elem_of_app; tauto|].
    destruct IHr as [vr ->];
      [intros n Hn; apply Hnames; simpl; rewrite elem_of_app; tauto|].
    simpl. eauto.
  - destruct IHe as [v ->]; [done|]. simpl. eauto.
  - by apply IHc.
  - apply Hnames. simpl. by left.
  - eauto.
Qed.

End EvaluationFacts.

(** ** The analysis of a document *)

Module AnalysisFacts.
Import Model Samples SetFacts EvaluationFacts.
Local Open Scope nat_scope.
Local Open Scope list_scope.

Lemma elem_of_flat_map {A B} (f : A → list B) (l : list A) (y : B) :
  y ∈ flat_map f l ↔ ∃ x, x ∈ l ∧ y ∈ f x.
Proof.
  rewrite list_elem_of_In, in_flat_map.
  by setoid_rewrite list_elem_of_In.
Qed.

Lemma elem_of_first_seen {A} `{EqDecision A} (l : list A) x :
  x ∈ first_seen l ↔ x ∈ l.
Proof.
  unfold first_seen. rewrite elem_of_first_seen_from, elem_of_nil. tauto.
Qed.

(** The names [analyze] collects are those of the traversal. *)
Lemma identifiers_members (p : Parsed) name :
  name ∈ a_identifiers (analyze p) ↔
  name ∈ flat_map names (p_expressions p).
Proof.
  cbn [analyze a_identifiers].
  rewrite (proj2 (toSet_members _)), !elem_of_flat_map.
  unfold collectIdentifiers. by setoid_rewrite elem_of_first_seen.
Qed.

Lemma identifiers_NoDup (p : Parsed) : NoDup (a_identifiers (analyze p)).
Proof. apply toSet_members. Qed.

(** C4 (as amended).  [identifiers] holds the Identifier names met by the
    depth-first, left-to-right traversal of the expressions in list
    order, each name exactly once; with at most 8 distinct names they
    come in first-seen order. *)
Theorem analyze_identifiers (p : Parsed) :
  let seen := first_seen (flat_map names (p_expressions p)) in
  a_identifiers (analyze p) ≡ₚ seen ∧
  NoDup (a_identifiers (analyze p)) ∧
  (length seen ≤ 8 → a_identifiers (analyze p) = seen).
Proof.
  intros seen. split_and!.
  - apply NoDup_Permutation;
      [apply identifiers_NoDup|apply NoDup_first_seen_from|].
    intros name. subst seen.
    by rewrite identifiers_members, elem_of_first_seen.
  - apply identifiers_NoDup.
  - intros Hlen. subst seen. cbn [analyze a_identifiers].
    unfold collectIdentifiers.
    assert (first_seen (flat_map (λ e, first_seen (names e)) (p_expressions p))
            = first_seen (flat_map names (p_expressions p))) as Heq
      by apply first_seen_from_flat_map.
    rewrite <- Heq in Hlen |- *. by apply toSet_small.
Qed.

(** The theorem at work on [b and a, a and b]. *)
Lemma analyze_identifiers_witness :
  a_identifiers (analyze (parsed "b and a, a and b")) = ["b"; "a"]%string.
Proof.
  apply (proj2 (proj2 (analyze_identifiers (parsed "b and a, a and b")))).
  vm_compute. lia.
Defined.

(** C4 as stated fails: with nine names the order is not the first-seen
    order. *)
Lemma analyze_identifiers_counterexample :
  first_seen (flat_map names (p_expressions (parsed nine_names))) =
    ["i"; "h"; "g"; "f"; "e"; "d"; "c"; "b"; "a"]%string ∧
  a_identifiers (analyze (parsed nine_names)) =
    ["a"; "b"; "c"; "d"; "e"; "f"; "g"; "h"; "i"]%string ∧
  a_identifiers (analyze (parsed nine_names)) ≠
    first_seen (flat_map names (p_expressions (parsed nine_names))).
Proof. split_and!; by vm_compute. Qed.

(** C5 (as amended).  [subExpressions] is the concatenation, in list
    order, of the sub-expressions of each top-level expression: every
    node of every subtree is in it, root included, and structurally
    equal nodes are collapsed within one top-level expression. *)
Theorem analyze_subExpressions (p : Parsed) :
  a_subExpressions (analyze p) =
    flat_map collectSubExpressions (p_expressions p) ∧
  (∀ n, n ∈ a_subExpressions (analyze p) ↔
        ∃ e, e ∈ p_expressions p ∧ n ∈ nodes e) ∧
  (∀ e, e ∈ nodes e ∧
        NoDup (collectSubExpressions e) ∧
        ∀ n, n ∈ collectSubExpressions e ↔ n ∈ nodes e).
Proof.
  split_and!; [done| |].
  - intros n. cbn [analyze a_subExpressions]. rewrite elem_of_flat_map.
    unfold collectSubExpressions. by setoid_rewrite elem_of_first_seen.
  - intros e. split_and!.
    + destruct e; by left.
    + apply NoDup_first_seen_from.
    + intros n. apply elem_of_first_seen.
Qed.

(** C5 as stated fails at [a and b, a and b]: the nodes of the second
    expression are listed again.  Within [(a and b) or (a and b)] they
    are not. *)
Lemma analyze_subExpressions_repeated :
  let a_and_b := BinaryOp AND (Identifier "a") (Identifier "b") in
  a_subExpressions (analyze (parsed "a and b, a and b")) =
    [a_and_b; Identifier "a"; Identifier "b";
     a_and_b; Identifier "a"; Identifier "b"] ∧
  ¬ NoDup (a_subExpressions (analyze (parsed "a and b, a and b"))) ∧
  NoDup (a_subExpressions (analyze (parsed "(a and b) or (a and b)"))).
Proof.
  split_and!.
  - by vm_compute.
  - apply (bool_decide_unpack _). by vm_compute.
  - apply (bool_decide_unpack _). by vm_compute.
Qed.

(** *** Row selection *)

Lemma scan_from_snoc {A} (f : A → A → A) l : ∀ acc x,
  scan_from f acc (l ++ [x]) =
  scan_from f acc l ++ [f (default acc (last (scan_from f acc l))) x].
Proof.
  induction l as [|y l IH]; intros acc x; [done|].
  cbn [app scan_from]. rewrite IH. cbn [app]. do 3 f_equal.
  rewrite last_cons. by destruct (last _).
Qed.

Lemma current_snoc rows val :
  current (rows ++ [val]) = toggle (current rows) val.
Proof.
  unfold current, selections, startWith, scan.
  rewrite scan_from_snoc, app_comm_cons, last_snoc. cbn [default from_option id].
  rewrite last_cons. by destruct (last _).
Qed.

(** C6.  A [selectRow(r)] event toggles: the new selection is none when
    [r] is the current selection, and [r] otherwise.  Selecting 3 twice
    gives none; selecting 3 then 5 gives 5. *)
Theorem select_row_toggle (rows : list (option Z)) (r : Z) :
  current (rows ++ [Some r]) =
    (if decide (current rows = Some r) then None else Some r) ∧
  current [] = None ∧
  current [Some 3%Z; Some 3%Z] = None ∧
  current [Some 3%Z; Some 5%Z] = Some 5%Z.
Proof.
  split; [|done]. rewrite current_snoc. unfold toggle.
  destruct (decide (current rows = Some r)); done.
Qed.

(** *** Evaluation of the selected row *)

Lemma toplevel_names (p : Parsed) e name :
  e ∈ a_toplevelExpressions (analyze p) → name ∈ names e →
  name ∈ a_identifiers (analyze p).
Proof.
  cbn [analyze a_toplevelExpressions]. intros [_ He]%list_elem_of_filter Hn.
  apply identifiers_members, elem_of_flat_map. eauto.
Qed.

Lemma lookup_names_inr (m : gmap string bool) name :
  (kmap inr m : gmap (Expression + string) bool) !! inr name = m !! name.
Proof. rewrite lookup_kmap; [done|apply _]. Qed.

Lemma lookup_names_inl (m : gmap string bool) e :
  (kmap inr m : gmap (Expression + string) bool) !! inl e = None.
Proof. apply lookup_kmap_None; [apply _|]. by intros name [=]. Qed.

(** What [subEvalutation] holds for a document whose identifiers are
    distinct and cover the names of its top-level expressions. *)
Lemma subEvalutation_lookup (a : Analyzed) (row : Z) :
  NoDup (a_identifiers a) →
  (∀ e name, e ∈ a_toplevelExpressions a → name ∈ names e →
             name ∈ a_identifiers a) →
  let assignment := identifierMap (a_identifiers a) row in
  subEvalutation (Analysis a) None = inr None ∧
  ∃ m,
    subEvalutation (Analysis a) (Some row) = inr (Some m) ∧
    (∀ i name, a_identifiers a !! i = Some name →
       assignment !! name =
         Some (if i <? 32 then Z.testbit row (Z.of_nat i) else false) ∧
       m !! (inr name : Expression + string) = assignment !! name) ∧
    (∀ e, e ∈ a_toplevelExpressions a →
       ∃ v, evaluateExpression e assignment = Some v ∧
            m !! (inl e : Expression + string) = Some v) ∧
    (∀ k, is_Some (m !! k) →
       match k with
       | inl e => e ∈ a_toplevelExpressions a
       | inr name => name ∈ a_identifiers a
       end).
Proof.
  intros Hnd Hcover assignment. split; [done|].
  cbn [subEvalutation get_identifiers get_toplevelExpressions].
  fold assignment.
  set (f := λ expr, pair (inl expr : Expression + string)
                      <$> evaluateExpression expr assignment).
  assert (∀ e, e ∈ a_toplevelExpressions a →
            is_Some (evaluateExpression e assignment)) as Htotal.
  { intros e He. apply evaluateExpression_total. intros name Hn.
    pose proof (Hcover e name He Hn) as [i Hi]%list_elem_of_lookup_1.
    unfold assignment.
    rewrite (identifierMap_lookup _ _ i) by done.
    eauto. }
  destruct (mapM f (a_toplevelExpressions a)) as [pairs|] eqn:Hpairs; last first.
  { exfalso. apply eq_None_not_Some in Hpairs. apply Hpairs, mapM_is_Some.
    apply Forall_forall. intros e He. unfold f. simpl.
    destruct (Htotal e He) as [v ->]. simpl. eauto. }
  apply mapM_Some_1 in Hpairs.
  assert (∀ k v, (k, v) ∈ pairs ↔
            ∃ e, e ∈ a_toplevelExpressions a ∧ k = inl e ∧
                 evaluateExpression e assignment = Some v) as Hin.
  { intros k v. split.
    - intros [i Hi]%list_elem_of_lookup_1.
      destruct (Forall2_lookup_r _ _ _ _ _ Hpairs Hi) as (e & He & Hf).
      exists e. split; [by eapply list_elem_of_lookup_2|].
      unfold f in Hf. destruct (evaluateExpression e assignment); by simplify_eq/=.
    - intros (e & [i Hi]%list_elem_of_lookup_1 & -> & Hv).
      destruct (Forall2_lookup_l _ _ _ _ _ Hpairs Hi) as (kv & Hkv & Hf).
      unfold f in Hf. rewrite Hv in Hf. simplify_eq/=.
      by eapply list_elem_of_lookup_2. }
  eexists. split; [done|]. unfold Immutable.merge. split_and!.
  - intros i name Hi. split.
    + unfold assignment. rewrite (identifierMap_lookup _ _ i)
        by done.
      by rewrite bit_testbit.
    + rewrite lookup_union_l'; [apply lookup_names_inr|].
      rewrite lookup_names_inr. unfold assignment.
      rewrite (identifierMap_lookup _ _ i) by done.
      eauto.
  - intros e He. destruct (Htotal e He) as [v Hv]. exists v. split; [done|].
    rewrite lookup_union_r.
    + apply Map_lookup_Some.
      * intros y (e' & _ & ? & ?)%Hin. by simplify_eq.
      * apply Hin. eauto.
    + apply lookup_names_inl.
  - intros k [v [Hk|[_ Hk]]%lookup_union_Some_raw].
    + apply lookup_kmap_Some in Hk as (name & -> & Hname); [|apply _].
      by eapply identifierMap_lookup_inv.
    + apply Map_lookup_inv, Hin in Hk as (e & He & -> & _). done.
Qed.

(** C7 (as amended).  With no row selected the evaluation is none.  With
    row [row] selected it is a mapping in which [identifiers[i]] is bit
    [i] of the row when [i < 32] and false from index 32 on, in which
    every entry of [toplevelExpressions] has its value under that
    assignment, and which has no other keys. *)
Theorem row_evaluation (p : Parsed) (row : Z) :
  let a := analyze p in
  let assignment := identifierMap (a_identifiers a) row in
  subEvalutation (Analysis a) None = inr None ∧
  ∃ m,
    subEvalutation (Analysis a) (Some row) = inr (Some m) ∧
    (∀ i name, a_identifiers a !! i = Some name →
       assignment !! name =
         Some (if i <? 32 then Z.testbit row (Z.of_nat i) else false) ∧
       m !! (inr name : Expression + string) = assignment !! name) ∧
    (∀ e, e ∈ a_toplevelExpressions a →
       ∃ v, evaluateExpression e assignment = Some v ∧
            m !! (inl e : Expression + string) = Some v) ∧
    (∀ k, is_Some (m !! k) →
       match k with
       | inl e => e ∈ a_toplevelExpressions a
       | inr name => name ∈ a_identifiers a
       end).
Proof.
  intros a. apply subEvalutation_lookup.
  - apply identifiers_NoDup.
  - apply toplevel_names.
Qed.

(** C7 as stated fails from index 32 on: bit 32 of the row [2 ^ 32] is
    set, and the identifier at index 32 is false. *)
Lemma row_evaluation_counterexample :
  let identifiers := a_identifiers (analyze (parsed thirty_three_names)) in
  identifiers !! 32 = Some "a9"%string ∧
  Z.testbit (2 ^ 32) 32 = true ∧
  identifierMap identifiers (2 ^ 32) !! "a9"%string = Some false ∧
  ∃ m, subEvalutation (Analysis (analyze (parsed thirty_three_names)))
         (Some (2 ^ 32)%Z) = inr (Some m) ∧
       m !! (inr "a9"%string : Expression + string) = Some false.
Proof.
  intros identifiers.
  assert (identifiers !! 32 = Some "a9"%string) as H32 by (by vm_compute).
  destruct (subEvalutation_lookup (analyze (parsed thirty_three_names))
              (2 ^ 32) (identifiers_NoDup _) (toplevel_names _))
    as (_ & m & Hm & Hnames & _).
  destruct (Hnames 32 "a9"%string H32) as [Hbit Hlook].
  split_and!; [done|done|done|].
  exists m. split; [done|]. by rewrite Hlook.
Qed.

End AnalysisFacts.

(** ** The stream of states *)

Module StreamFacts.
Import Model Samples.
Local Open Scope nat_scope.
Local Open Scope list_scope.

Section Stream.

Variables cParser latexParser mathParser pythonParser
  : string → SyntaxError + list RawNode.

Abbreviation model_parse :=
  (model_parse cParser latexParser mathParser pythonParser).
Abbreviation document :=
  (document cParser latexParser mathParser pythonParser).
Abbreviation step := (step cParser latexParser mathParser pythonParser).
Abbreviation switch := (switch cParser latexParser mathParser pythonParser).
Abbreviation states_from :=
  (states_from cParser latexParser mathParser pythonParser).

Lemma switch_emits (i : Input) :
  ∃ s, switch i = ({| latest := i; selected := None |}, inr s) ∧
       s_selectedRow s = None ∧ s_subEvalutation s = None.
Proof. eexists. split; [reflexivity|]. done. Qed.

(** C8.  A new text, notation or visibility flag starts a new document:
    the state emitted next has no row selected, whatever row was
    selected before. *)
Theorem selection_reset (l : Live) (ev : Event) (events : list Event) :
  restarts ev = true →
  ∃ s, (step l ev).2 = inr s ∧
       head (states_from l (ev :: events)) = Some s ∧
       s_selectedRow s = None ∧
       s_subEvalutation s = None ∧
       selected (step l ev).1 = None.
Proof.
  intros Hev. destruct ev as [str|lang|flag|val]; [| | |done];
    cbn [step states_from];
    match goal with
    | |- context [switch ?i] =>
      destruct (switch_emits i) as (s & -> & ? & ?)
    end; by exists s.
Qed.

(** Between two restarts the states are those of the inner stream of
    the current document, as long as none of them is an error. *)
Lemma states_from_inner (vals : list (option Z)) : ∀ l : Live,
  let i := latest l in
  Forall (λ r, ∃ s, r = inr s)
    (Model.state i (document i) <$> scan_from toggle (selected l) vals) →
  inr <$> states_from l (selectRow <$> vals) =
  Model.state i (document i) <$> scan_from toggle (selected l) vals.
Proof.
  induction vals as [|val vals IH]; intros l i Hok; [done|].
  cbn [scan_from fmap list_fmap] in Hok |- *.
  apply Forall_cons in Hok as [[s Hs] Hok].
  cbn [states_from step]. fold i. rewrite Hs. cbn [fmap list_fmap].
  f_equal. by apply (IH {| latest := i; selected := toggle (selected l) val |}).
Qed.

Lemma model_inner (vals : list (option Z)) :
  Forall (λ r, ∃ s, r = inr s)
    (inner cParser latexParser mathParser pythonParser initial vals) →
  inr <$> model cParser latexParser mathParser pythonParser
            (selectRow <$> vals) =
  inner cParser latexParser mathParser pythonParser initial vals.
Proof.
  unfold inner, selections, startWith, scan, Model.model.
  cbn [fmap list_fmap]. intros [[s Hs] Hok]%Forall_cons.
  unfold Model.switch. rewrite Hs. cbn [fmap list_fmap]. f_equal.
  by apply (states_from_inner vals {| latest := initial; selected := None |}).
Qed.

Lemma model_parse_error (i : Input) (error : ParseError) :
  model_parse i = inl error →
  pe_lang error = in_lang i ∧ pe_string error = in_string i.
Proof.
  unfold Model.model_parse.
  destruct (match languages _ _ _ _ _ with Some _ => _ | None => _ end);
    by intros [= <-].
Qed.

(** C10.  When parsing fails, the record emitted by [handleError] has
    the keys [lang], [detected], [error] (with the location and the
    message) and [string], and no others: [expressions], [identifiers],
    [subExpressions] and [toplevelExpressions] are absent from it, and
    undefined in the state built from it. *)
Theorem failed_parse_record (i : Input) (error : ParseError) :
  model_parse i = inl error →
  let info := {| err_location := pe_location error;
                 err_message := pe_message error |} in
  document i =
    Failure {| e_lang := in_lang i; e_detected := pe_detected error;
               e_error := info; e_string := in_string i |} ∧
  keys (document i) = ["lang"; "detected"; "error"; "string"]%string ∧
  get_expressions (document i) = None ∧
  get_identifiers (document i) = None ∧
  get_subExpressions (document i) = None ∧
  get_toplevelExpressions (document i) = None ∧
  ∃ s, state i (document i) None = inr s ∧
       s_error s = Some info ∧
       s_expressions s = None ∧ s_identifiers s = None ∧
       s_subExpressions s = None ∧ s_toplevelExpressions s = None.
Proof.
  intros Herror info.
  destruct (model_parse_error i error Herror) as [Hlang Hstring].
  unfold Model.document. rewrite Herror. unfold handleError.
  rewrite Hlang, Hstring. split_and!; try done.
  eexists. split; [reflexivity|]. done.
Qed.

End Stream.

(** The theorems at work. *)
Lemma selection_reset_witness :
  ∃ s, (Model.step (rejecting 2) (rejecting 0) accepting accepting
          {| latest := {| in_string := "a and b"; in_lang := "auto";
                          in_showSubExpressions := true |};
             selected := Some 3%Z |}
          (input "b and a")).2 = inr s ∧
       s_selectedRow s = None.
Proof.
  destruct (selection_reset (rejecting 2) (rejecting 0) accepting accepting
              {| latest := {| in_string := "a and b"; in_lang := "auto";
                              in_showSubExpressions := true |};
                 selected := Some 3%Z |}
              (input "b and a") [] eq_refl)
    as (s & Hs & _ & Hrow & _).
  exists s. by split.
Defined.

Lemma failed_parse_record_witness :
  get_expressions
    (Model.document (rejecting 2) (rejecting 0) (rejecting 1) (rejecting 4)
       {| in_string := "a &"; in_lang := "c";
          in_showSubExpressions := true |}) = None.
Proof.
  destruct (failed_parse_record (rejecting 2) (rejecting 0) (rejecting 1)
              (rejecting 4)
              {| in_string := "a &"; in_lang := "c";
                 in_showSubExpressions := true |}
              {| pe_lang := "c"; pe_string := "a &";
                 pe_message := "Expected expression";
                 pe_location := Some (se_location (failure 2));
                 pe_detected := None |}
              eq_refl)
    as (_ & _ & Hexpressions & _).
  exact Hexpressions.
Defined.

End StreamFacts.

(** ** The lexer: errors, identifiers and white space *)

Module LexerFacts.
Import Grammar GrammarFacts.
Local Open Scope nat_scope.
Local Open Scope list_scope.

Lemma space_not_word c : is_space c = true → is_word c = false.
Proof.
  unfold is_space, is_word, is_alpha. generalize (code c). intros n Hs.
  apply not_true_is_false. intros Hw. revert Hs Hw.
  rewrite !orb_true_iff, !andb_true_iff, !N.leb_le, !N.eqb_eq. lia.
Qed.

Lemma alpha_is_word c : is_alpha c = true → is_word c = true.
Proof. unfold is_word. by intros ->. Qed.

Lemma space_not_alpha c : is_space c = true → is_alpha c = false.
Proof.
  intros Hc%space_not_word. destruct (is_alpha c) eqn:Ha; [|done].
  by rewrite (alpha_is_word c Ha) in Hc.
Qed.

(** What [lex_from] does on one more character. *)
Lemma lex_from_word_char w c s :
  is_word c = true →
  lex_from (Some w) (String c s) =
  lex_from (Some (w +:+ String c EmptyString)) s.
Proof. intros Hc. cbn [lex_from]. by rewrite Hc. Qed.

Lemma lex_from_flush w c s :
  is_word c = false →
  lex_from (Some w) (String c s) = flush (Some w) (lex_from None (String c s)).
Proof. intros Hc. cbn [lex_from]. by rewrite Hc. Qed.

Lemma lex_from_space word c s :
  is_space c = true →
  lex_from word (String c s) = flush word (lex_from None s).
Proof.
  intros Hc. destruct word as [w|].
  - rewrite lex_from_flush by by apply space_not_word.
    cbn [lex_from]. by rewrite Hc.
  - cbn [lex_from flush]. by rewrite Hc.
Qed.

Lemma flush_None word : flush word None = None.
Proof. by destruct word. Qed.

(** An error in the rest of the text is an error of the text. *)
Lemma lex_from_rest_fails c s :
  (∀ word, lex_from word s = None) → ∀ word, lex_from word (String c s) = None.
Proof.
  intros Hs.
  assert (lex_from None (String c s) = None) as Hnone.
  { cbn [lex_from]. rewrite !Hs.
    destruct (is_space c); [done|]. destruct (is_alpha c); [done|].
    by repeat case_decide. }
  intros [w|]; [|done].
  destruct (is_word c) eqn:Hw.
  - rewrite lex_from_word_char by done. apply Hs.
  - rewrite lex_from_flush by done. by rewrite Hnone.
Qed.

(** A character no rule consumes is a lexical error wherever it is. *)
Lemma lex_from_unlexable s : ∀ word,
  all_chars lexable s = false → lex_from word s = None.
Proof.
  induction s as [|c s IH]; intros word Hs; [done|].
  cbn [all_chars] in Hs. apply andb_false_iff in Hs as [Hc|Hs].
  - unfold lexable in Hc.
    apply orb_false_iff in Hc as [Hc H3]. apply orb_false_iff in Hc as [Hc H2].
    apply orb_false_iff in Hc as [Hc H1]. apply orb_false_iff in Hc as [Hc Hw].
    apply bool_decide_eq_false in H1, H2, H3.
    assert (is_alpha c = false) as Ha.
    { destruct (is_alpha c) eqn:Ha; [|done].
      by rewrite (alpha_is_word c Ha) in Hw. }
    assert (lex_from None (String c s) = None) as Hnone.
    { cbn [lex_from]. rewrite Hc, Ha. by repeat case_decide. }
    destruct word as [w|]; [|done].
    rewrite lex_from_flush by done. by rewrite Hnone.
  - apply lex_from_rest_fails. intros word'. by apply IH.
Qed.

(** The step of the lexer at the start of a token. *)
Lemma lex_from_start c s :
  lex_from None (String c s) =
  if is_space c then lex_from None s
  else if is_alpha c then lex_from (Some (String c EmptyString)) s
  else match punctuation c with
       | Some t => cons t <$> lex_from None s
       | None => None
       end.
Proof.
  cbn [lex_from]. unfold punctuation.
  destruct (is_space c); [done|]. destruct (is_alpha c); [done|].
  by repeat case_decide.
Qed.

Lemma punctuation_not_word c t : punctuation c = Some t → is_word c = false.
Proof. unfold punctuation. by repeat case_decide; intros; simplify_eq. Qed.

Lemma punctuation_not_EOF c t : punctuation c = Some t → t ≠ T_EOF.
Proof. unfold punctuation. by repeat case_decide; intros; simplify_eq. Qed.

Lemma punctuation_printable c t : punctuation c = Some t → printable t = true.
Proof. unfold punctuation. by repeat case_decide; intros; simplify_eq. Qed.

Lemma all_chars_app P s1 s2 :
  all_chars P (s1 +:+ s2) = all_chars P s1 && all_chars P s2.
Proof.
  induction s1 as [|c s1 IH]; [done|]. simpl. by rewrite IH, andb_assoc.
Qed.

Lemma word_text_snoc w c :
  word_text w = true → is_word c = true →
  word_text (w +:+ String c EmptyString) = true.
Proof.
  destruct w as [|a w]; [done|]. simpl.
  intros [Ha Hw]%andb_prop Hc. rewrite Ha, all_chars_app, Hw. simpl.
  by rewrite Hc.
Qed.

Lemma word_token_identifier w y :
  word_text w = true → word_token w = T_IDENTIFIER y →
  identifier_text y = true.
Proof.
  intros Hw. unfold word_token.
  repeat case_decide; try done. intros [= <-].
  unfold identifier_text. rewrite Hw, bool_decide_eq_false_2; [done|].
  unfold keywords. rewrite !elem_of_cons, elem_of_nil. tauto.
Qed.

(** The IDENTIFIER tokens of a text: a letter followed by letters,
    digits and underscores, and never one of the six keywords. *)
Lemma lex_from_identifiers s : ∀ word ts y,
  from_option (λ w, word_text w = true) True word →
  lex_from word s = Some ts → T_IDENTIFIER y ∈ ts →
  identifier_text y = true.
Proof.
  induction s as [|c s IH]; intros word ts y Hword Hlex Hy.
  - destruct word as [w|]; simpl in Hlex; simplify_eq.
    + apply elem_of_cons in Hy as [Hy|Hy%list_elem_of_singleton]; [|done].
      by apply (word_token_identifier w).
    + by apply list_elem_of_singleton in Hy.
  - assert (∀ ts, lex_from None (String c s) = Some ts →
              T_IDENTIFIER y ∈ ts → identifier_text y = true) as Hstart.
    { intros ts0. rewrite lex_from_start.
      destruct (is_space c); [by apply IH|].
      destruct (is_alpha c) eqn:Ha.
      { apply IH. simpl. by rewrite Ha. }
      destruct (punctuation c) as [t|] eqn:Ht; [|done].
      destruct (lex_from None s) as [ts1|] eqn:Hs; [|done].
      intros [= <-] [Hy'|Hy']%elem_of_cons.
      - unfold punctuation in Ht. by repeat case_decide; simplify_eq.
      - by apply (IH None ts1). }
    destruct word as [w|]; [|by eapply Hstart].
    destruct (is_word c) eqn:Hw.
    + rewrite lex_from_word_char in Hlex by done.
      eapply IH; [|done..]. simpl. by apply word_text_snoc.
    + rewrite lex_from_flush in Hlex by done.
      destruct (lex_from None (String c s)) as [ts1|] eqn:Hs; [|done].
      simpl in Hlex. simplify_eq.
      apply elem_of_cons in Hy as [Hy|Hy].
      * by apply (word_token_identifier w).
      * by eapply Hstart.
Qed.

(** *** Texts put together *)
(** Text after the tokens: white space at the end changes nothing. *)
Lemma lex_from_blank ws : ∀ word,
  blank ws = true → lex_from word ws = flush word (Some [T_EOF]).
Proof.
  induction ws as [|c ws IH]; intros word; [done|].
  cbn [blank]. intros [Hc Hws]%andb_prop.
  rewrite lex_from_space by done. rewrite (IH None) by done.
  by destruct word.
Qed.

Lemma lex_from_app_blank s ws : ∀ word,
  blank ws = true → lex_from word (s +:+ ws) = lex_from word s.
Proof.
  intros word Hws. revert word. induction s as [|c s IH]; intros word.
  - simpl. by apply lex_from_blank.
  - change (String c s +:+ ws) with (String c (s +:+ ws)).
    assert (lex_from None (String c (s +:+ ws)) = lex_from None (String c s))
      as Hstart by (by rewrite !lex_from_start, !IH).
    destruct word as [w|]; [|done].
    destruct (is_word c) eqn:Hw.
    + by rewrite !lex_from_word_char, IH.
    + by rewrite !lex_from_flush, Hstart.
Qed.

Lemma lex_blank_app ws s :
  blank ws = true → lex (ws +:+ s) = lex s.
Proof.
  unfold lex. induction ws as [|c ws IH]; [done|].
  cbn [blank]. intros [Hc Hws]%andb_prop.
  change (String c ws +:+ s) with (String c (ws +:+ s)).
  rewrite lex_from_space by done. by apply IH.
Qed.

(** An error stays an error whatever follows. *)
Lemma lex_from_app_None s1 : ∀ word s2,
  lex_from word s1 = None → lex_from word (s1 +:+ s2) = None.
Proof.
  induction s1 as [|c s1 IH]; intros word s2 Hnone.
  - by destruct word.
  - change (String c s1 +:+ s2) with (String c (s1 +:+ s2)).
    assert (lex_from None (String c s1) = None →
            lex_from None (String c (s1 +:+ s2)) = None) as Hstart.
    { rewrite !lex_from_start.
      destruct (is_space c); [by apply IH|].
      destruct (is_alpha c); [by apply IH|].
      destruct (punctuation c); [|done].
      destruct (lex_from None s1) eqn:Hs; [done|]. by rewrite IH. }
    destruct word as [w|]; [|by apply Hstart].
    destruct (is_word c) eqn:Hw.
    + rewrite lex_from_word_char in * by done. by apply IH.
    + rewrite lex_from_flush in * by done.
      destruct (lex_from None (String c s1)) eqn:Hs; [done|].
      by rewrite Hstart.
Qed.

(** The tokens of a text followed by a character that is not a word
    character: those of the text, then those of what follows. *)
Lemma lex_from_app s1 : ∀ word ts c s2,
  is_word c = false →
  lex_from word s1 = Some (ts ++ [T_EOF]) →
  lex_from word (s1 +:+ String c s2) =
  (ts ++.) <$> lex_from None (String c s2).
Proof.
  induction s1 as [|a s1 IH]; intros word ts c s2 Hc Hlex.
  - destruct word as [w|]; simpl in Hlex.
    + assert (ts = [word_token w]) as ->.
      { destruct ts as [|t [|t' ts]]; simplify_eq/=; [done|].
        by destruct ts. }
      change (EmptyString +:+ String c s2) with (String c s2).
      rewrite lex_from_flush by done.
      by destruct (lex_from None (String c s2)).
    + assert (ts = []) as -> by (by destruct ts as [|t [|t' ts]]).
      change (EmptyString +:+ String c s2) with (String c s2).
      by destruct (lex_from None (String c s2)).
  - change (String a s1 +:+ String c s2) with (String a (s1 +:+ String c s2)).
    assert (∀ ts, lex_from None (String a s1) = Some (ts ++ [T_EOF]) →
            lex_from None (String a (s1 +:+ String c s2)) =
            (ts ++.) <$> lex_from None (String c s2)) as Hstart.
    { intros ts0.
      rewrite (lex_from_start a s1), (lex_from_start a (s1 +:+ String c s2)).
      destruct (is_space a); [by apply IH|].
      destruct (is_alpha a); [by apply IH|].
      destruct (punctuation a) as [t|] eqn:Ht; [|done].
      destruct (lex_from None s1) as [ts1|] eqn:Hs; [|done].
      destruct (lex_from_ends_in_EOF _ _ _ Hs) as (ts1' & -> & _).
      intros [= Heq]. rewrite app_comm_cons in Heq.
      apply app_inj_tail in Heq as [<- _].
      rewrite (IH None ts1') by done.
      by destruct (lex_from None (String c s2)). }
    destruct word as [w|]; [|by apply Hstart].
    destruct (is_word a) eqn:Hw.
    + rewrite lex_from_word_char in * by done. by apply IH.
    + rewrite lex_from_flush in * by done.
      destruct (lex_from None (String a s1)) as [ts1|] eqn:Hs; [|done].
      destruct (lex_from_ends_in_EOF _ _ _ Hs) as (ts1' & -> & _).
      simpl in Hlex. injection Hlex as Heq. rewrite app_comm_cons in Heq.
      apply app_inj_tail in Heq as [<- _].
      rewrite (Hstart ts1') by done.
      by destruct (lex_from None (String c s2)).
Qed.

End LexerFacts.

(** ** The parser: what it returns, in terms of tokens *)

Module ParserFacts.
Import Grammar GrammarFacts LexerFacts.
Local Open Scope nat_scope.
Local Open Scope list_scope.

(** What the parser returns, in terms of tokens. *)
Lemma parse_Some input es :
  parse input = Some es →
  lex input = Some (unparse_list es) ∧ Forall (λ e, bracketed e = true) es.
Proof.
  unfold parse. destruct (lex input) as [ts|] eqn:Hlex; [|done]. simpl.
  intros Hrun. apply run_sound in Hrun as [Hb [rest Hrest]]; [|done..].
  split; [|done]. f_equal.
  apply lex_from_ends_in_EOF in Hlex as (ts' & -> & Hn).
  destruct (unparse_list_ends_in_EOF es) as (pre & Hpre & Hn').
  simpl in Hrest. rewrite Hpre in Hrest |- *.
  apply first_EOF in Hrest as Hnil; [|done..]. subst rest.
  by rewrite app_nil_r in Hrest.
Qed.

Lemma parse_unparse input es :
  lex input = Some (unparse_list es) →
  Forall (λ e, bracketed e = true) es →
  parse input = Some es.
Proof.
  unfold parse. intros -> Hb. simpl. destruct es as [|e es]; [done|].
  by rewrite run_unparse_list.
Qed.

(** *** The empty list *)

Lemma lex_from_word_tokens s : ∀ w ts,
  lex_from (Some w) s = Some ts → 2 ≤ length ts.
Proof.
  induction s as [|c s IH]; intros w ts.
  - simpl. intros [= <-]. simpl. lia.
  - destruct (is_word c) eqn:Hw.
    + rewrite lex_from_word_char by done. apply IH.
    + rewrite lex_from_flush by done.
      destruct (lex_from None (String c s)) as [ts1|] eqn:Hs; [|done].
      destruct (lex_from_ends_in_EOF _ _ _ Hs) as (ts1' & -> & _).
      simpl. intros [= <-]. simpl. rewrite length_app. simpl. lia.
Qed.

Lemma lex_EOF_blank s : lex s = Some [T_EOF] → blank s = true.
Proof.
  unfold lex. induction s as [|c s IH]; [done|].
  rewrite lex_from_start. cbn [blank].
  destruct (is_space c); [done|].
  destruct (is_alpha c).
  { intros Hlex%lex_from_word_tokens. simpl in Hlex. lia. }
  destruct (punctuation c) as [t|] eqn:Ht; [|done].
  destruct (lex_from None s) as [ts|]; [|done].
  intros [= -> ->]. by apply punctuation_not_EOF in Ht.
Qed.

(** *** Lists of expressions *)

Lemma comma_not_in_unparse e : T_COMMA ∉ unparse e.
Proof.
  induction e as [op l IHl r IHr|e IHe|style c IHc|name|v]; simpl.
  - rewrite elem_of_app, elem_of_cons.
    intros [?|[?|?]]; [done| |done]. by destruct op.
  - rewrite elem_of_cons. by intros [?|?].
  - rewrite elem_of_cons, elem_of_app, list_elem_of_singleton.
    by intros [?|[?|?]].
  - by rewrite list_elem_of_singleton.
  - destruct v; by rewrite list_elem_of_singleton.
Qed.

Lemma unparse_list_cons e e' es :
  unparse_list (e :: e' :: es) =
  unparse e ++ T_COMMA :: unparse_list (e' :: es).
Proof. done. Qed.

Lemma unparse_list_app es1 : ∀ es2 init,
  es1 ≠ [] → es2 ≠ [] → unparse_list es1 = init ++ [T_EOF] →
  unparse_list (es1 ++ es2) = init ++ T_COMMA :: unparse_list es2.
Proof.
  induction es1 as [|e es1 IH]; intros es2 init Hne1 Hne2 Hinit; [done|].
  destruct es1 as [|e' es1].
  - cbn [unparse_list] in Hinit. apply app_inj_tail in Hinit as [<- _].
    destruct es2 as [|e2 es2]; [done|]. apply unparse_list_cons.
  - rewrite unparse_list_cons in Hinit.
    change ((e :: e' :: es1) ++ es2) with (e :: e' :: (es1 ++ es2)).
    rewrite unparse_list_cons.
    destruct (unparse_list_ends_in_EOF (e' :: es1)) as (init' & Hinit' & _).
    rewrite Hinit' in Hinit.
    assert (init = unparse e ++ T_COMMA :: init') as ->.
    { apply (app_inj_tail _ _ T_EOF T_EOF). rewrite <- Hinit. same_list. }
    change (e' :: (es1 ++ es2)) with ((e' :: es1) ++ es2).
    rewrite (IH es2 init') by done. same_list.
Qed.

Lemma before_first {A} (x : A) (l2 : list A) : ∀ l1 r1 r2,
  x ∉ l2 → l1 ++ x :: r1 = l2 ++ r2 → ∃ k, l1 = l2 ++ k ∧ r2 = k ++ x :: r1.
Proof.
  induction l2 as [|y l2 IH]; intros l1 r1 r2 Hx Heq.
  - exists l1. by split.
  - apply not_elem_of_cons in Hx as [Hxy Hx].
    destruct l1 as [|z l1]; simplify_eq/=.
    destruct (IH l1 r1 r2 Hx) as (k & -> & ->); [done|]. by exists k.
Qed.

Lemma unparse_list_split es : ∀ a b,
  unparse_list es = a ++ T_COMMA :: b →
  ∃ es1 es2, es1 ≠ [] ∧ es2 ≠ [] ∧ es = es1 ++ es2 ∧
             unparse_list es1 = a ++ [T_EOF] ∧ unparse_list es2 = b.
Proof.
  induction es as [|e es IH]; intros a b Heq.
  - destruct a as [|? [|? ?]]; by simplify_eq/=.
  - cbn [unparse_list] in Heq. symmetry in Heq.
    destruct (before_first _ _ _ _ _ (comma_not_in_unparse e) Heq)
      as (k & -> & Hrest).
    destruct es as [|e' es].
    { destruct k as [|? [|? ?]]; by simplify_eq/=. }
    destruct k as [|t k]; simplify_eq/=.
    + exists [e], (e' :: es). rewrite app_nil_r. by split_and!.
    + destruct (IH k b) as (es1 & es2 & Hne1 & Hne2 & Hes & H1 & H2); [done|].
      exists (e :: es1), es2. split_and!; [done|done|by rewrite Hes| |done].
      cbn [unparse_list]. destruct es1 as [|e1 es1]; [done|].
      rewrite H1. same_list.
Qed.

End ParserFacts.

(** ** The language: errors, lists, parentheses and printing *)

Module LanguageFacts.
Import Grammar GrammarFacts LexerFacts ParserFacts.
Local Open Scope nat_scope.
Local Open Scope list_scope.

(** *** Lexical errors *)

(** A character that no lexical rule consumes makes the parser throw,
    wherever it stands in the text. *)
Theorem unlexable_character (input : string) :
  all_chars lexable input = false →
  lex input = None ∧ parse input = None.
Proof.
  intros Hbad. assert (lex input = None) as Hlex
    by (by apply lex_from_unlexable).
  split; [done|]. unfold parse. by rewrite Hlex.
Qed.

Lemma unlexable_character_witness : parse "a & b" = None.
Proof. apply (unlexable_character "a & b"). reflexivity. Defined.

Lemma word_not_space c : is_word c = true → is_space c = false.
Proof.
  intros Hw. destruct (is_space c) eqn:Hs; [|done].
  by rewrite (space_not_word c Hs) in Hw.
Qed.

Lemma word_not_punctuation c : is_word c = true → punctuation c = None.
Proof.
  intros Hw. destruct (punctuation c) as [t|] eqn:Ht; [|done].
  by rewrite (punctuation_not_word c t Ht) in Hw.
Qed.

Lemma lex_from_start_not_letter c s :
  is_word c = true → is_alpha c = false → lex_from None (String c s) = None.
Proof.
  intros Hw Ha. rewrite lex_from_start, Ha.
  by rewrite word_not_space, word_not_punctuation.
Qed.

(** A digit or an underscore cannot start a token: a text in which one
    stands first, or follows a character that is not a letter, digit or
    underscore, makes the parser throw. *)
Theorem token_start_not_letter (before rest : string) (previous c : ascii) :
  is_word c = true → is_alpha c = false → is_word previous = false →
  parse (String c rest) = None ∧
  parse (before +:+ String previous (String c rest)) = None.
Proof.
  intros Hw Ha Hp.
  pose proof (lex_from_start_not_letter c rest Hw Ha) as Hc.
  assert (lex_from None (String previous (String c rest)) = None) as Hpc.
  { rewrite lex_from_start, Hc.
    destruct (is_space previous); [done|].
    destruct (is_alpha previous) eqn:Hpa;
      [by rewrite (alpha_is_word _ Hpa) in Hp|].
    by destruct (punctuation previous). }
  unfold parse, lex. split; [by rewrite Hc|].
  destruct (lex_from None before) as [ts|] eqn:Hb.
  - destruct (lex_from_ends_in_EOF _ _ _ Hb) as (ts' & -> & _).
    by rewrite (lex_from_app before None ts'), Hpc.
  - by rewrite lex_from_app_None.
Qed.

Lemma token_start_not_letter_witness : parse "a or (1b)" = None.
Proof.
  apply (token_start_not_letter "a or " "b)" "("%char "1"%char); reflexivity.
Defined.

(** *** Tokens *)

(** The token list of a text ends in EOF and has no other EOF; an
    IDENTIFIER token carries a letter followed by letters, digits and
    underscores, and never one of the words true, false, and, or, xor,
    not. *)
Theorem lex_tokens (input : string) (ts : list token) :
  lex input = Some ts →
  (∃ ts', ts = ts' ++ [T_EOF] ∧ T_EOF ∉ ts') ∧
  ∀ y, T_IDENTIFIER y ∈ ts → identifier_text y = true.
Proof.
  intros Hlex. split.
  - by apply (lex_from_ends_in_EOF input None).
  - intros y. by apply (lex_from_identifiers input None).
Qed.

Lemma lex_tokens_witness : identifier_text "a1_" = true.
Proof.
  refine (proj2 (lex_tokens "nota and not a1_"
            [T_IDENTIFIER "nota"; T_AND; T_NOT; T_IDENTIFIER "a1_"; T_EOF]
            _) "a1_" _); [reflexivity|].
  repeat (apply elem_of_cons; first [by left|right]).
Defined.

Lemma names_in_unparse e y : y ∈ raw_names e → T_IDENTIFIER y ∈ unparse e.
Proof.
  induction e as [op l IHl r IHr|e IHe|style c IHc|name|v]; simpl.
  - rewrite !elem_of_app, elem_of_cons. intros [?|?]; auto.
  - rewrite elem_of_cons. auto.
  - rewrite elem_of_cons, elem_of_app. auto.
  - rewrite !list_elem_of_singleton. by intros ->.
  - by rewrite elem_of_nil.
Qed.

Lemma unparse_in_list es e t : e ∈ es → t ∈ unparse e → t ∈ unparse_list es.
Proof.
  induction es as [|e' es IH]; [by rewrite elem_of_nil|].
  cbn [unparse_list]. rewrite elem_of_cons, elem_of_app.
  intros [->|He] Ht; [by left|]. right.
  destruct es as [|e'' es]; [by apply elem_of_nil in He|].
  right. by apply IH.
Qed.

(** The identifiers of a parsed expression have names of that form: no
    expression returned names a variable true, false, and, or, xor or
    not. *)
Theorem parse_names (input : string) (es : list RawNode) :
  parse input = Some es →
  ∀ e y, e ∈ es → y ∈ raw_names e → identifier_text y = true.
Proof.
  intros [Hlex _]%parse_Some e y He Hy.
  apply (lex_from_identifiers input None (unparse_list es)); [done..|].
  eapply unparse_in_list; [done|]. by apply names_in_unparse.
Qed.

Lemma parse_names_witness : identifier_text "a1_" = true.
Proof.
  refine (parse_names "nota and not a1_"
            [binary AND (identifier "nota") (unary (identifier "a1_"))]
            _ _ "a1_" _ _); [reflexivity|by apply elem_of_cons; left|].
  repeat (apply elem_of_cons; first [by left|right]).
Defined.

(** *** White space *)

(** White space before and after a text changes neither its tokens nor
    its parse. *)
Theorem surrounding_space (before input after : string) :
  blank before = true → blank after = true →
  lex (before +:+ input +:+ after) = lex input ∧
  parse (before +:+ input +:+ after) = parse input.
Proof.
  intros Hb Ha.
  assert (lex (before +:+ input +:+ after) = lex input) as Hlex.
  { rewrite lex_blank_app by done. by apply lex_from_app_blank. }
  split; [done|]. unfold parse. by rewrite Hlex.
Qed.

Lemma surrounding_space_witness :
  parse ("  " +:+ "a or b" +:+ " ") = parse "a or b".
Proof. apply (surrounding_space "  " "a or b" " "); reflexivity. Defined.

(** *** The empty list *)

(** The empty expression list is returned for white space only (the
    empty text included): any text with a token either gives at least
    one expression or makes the parser throw. *)
Theorem parse_nil_blank (input : string) :
  parse input = Some [] ↔ blank input = true.
Proof.
  split.
  - intros [Hlex _]%parse_Some. by apply lex_EOF_blank.
  - intros Hb. unfold parse. by rewrite lex_blank.
Qed.

(** *** Lists of expressions *)

Lemma lex_comma (s1 s2 : string) ts1 :
  lex s1 = Some (ts1 ++ [T_EOF]) →
  lex (s1 +:+ String ","%char s2) = (λ ts2, ts1 ++ T_COMMA :: ts2) <$> lex s2.
Proof.
  intros Hlex. unfold lex in *.
  rewrite (lex_from_app s1 None ts1) by done.
  rewrite lex_from_start. change (is_space ","%char) with false.
  change (is_alpha ","%char) with false.
  change (punctuation ","%char) with (Some T_COMMA).
  by destruct (lex_from None s2).
Qed.

(** A text with a comma between two texts parses exactly when both
    texts parse to at least one expression each, and then to the two
    lists one after the other; an empty side, or a side that does not
    parse on its own, makes the parser throw. *)
Theorem parse_comma (s1 s2 : string) (es : list RawNode) :
  parse (s1 +:+ String ","%char s2) = Some es ↔
  ∃ es1 es2, es1 ≠ [] ∧ es2 ≠ [] ∧
    parse s1 = Some es1 ∧ parse s2 = Some es2 ∧ es = es1 ++ es2.
Proof.
  split.
  - intros [Hlex Hb]%parse_Some.
    destruct (lex s1) as [ts1|] eqn:H1; last first.
    { unfold lex in *. by rewrite lex_from_app_None in Hlex. }
    destruct (lex_from_ends_in_EOF _ _ _ H1) as (ts1' & -> & _).
    rewrite (lex_comma s1 s2 ts1') in Hlex by done.
    destruct (lex s2) as [ts2|] eqn:H2; [|done]. simpl in Hlex.
    injection Hlex as Hlex. symmetry in Hlex.
    destruct (unparse_list_split _ _ _ Hlex)
      as (es1 & es2 & Hne1 & Hne2 & -> & Hes1 & Hes2).
    apply Forall_app in Hb as [Hb1 Hb2].
    exists es1, es2. split_and!; [done|done| | |done].
    + apply parse_unparse; [by rewrite H1, Hes1|done].
    + apply parse_unparse; [by rewrite H2, Hes2|done].
  - intros (es1 & es2 & Hne1 & Hne2 & [H1 Hb1]%parse_Some
              & [H2 Hb2]%parse_Some & ->).
    destruct (unparse_list_ends_in_EOF es1) as (init & Hinit & _).
    apply parse_unparse; [|by apply Forall_app].
    rewrite Hinit in H1. rewrite (lex_comma s1 s2 init), H2 by done.
    simpl. by rewrite (unparse_list_app es1 es2 init).
Qed.

(** *** Parentheses *)

(** A text that parses to one expression parses, between parentheses,
    to the group of that expression. *)
Theorem parse_parentheses (input : string) (e : RawNode) :
  parse input = Some [e] →
  parse (String "("%char (input +:+ ")")) = Some [group 1 e].
Proof.
  intros [Hlex Hb]%parse_Some. apply parse_unparse.
  - unfold lex in *. rewrite lex_from_start.
    change (is_space "("%char) with false.
    change (is_alpha "("%char) with false.
    change (punctuation "("%char) with (Some T_LPAREN).
    cbn [unparse_list] in Hlex.
    rewrite (lex_from_app input None (unparse e)) by done.
    change (lex_from None ")") with (Some [T_RPAREN; T_EOF]).
    cbn [fmap option_fmap option_map unparse_list unparse app].
    do 2 f_equal. by rewrite <- app_assoc.
  - apply Forall_inv in Hb. cbv beta in Hb.
    constructor; [|done]. cbn [bracketed]. by rewrite Hb.
Qed.

Lemma parse_parentheses_witness :
  parse "(a or b)" =
  Some [group 1 (binary OR (identifier "a") (identifier "b"))].
Proof. apply (parse_parentheses "a or b"). reflexivity. Defined.

(** *** From a tree to a text and back *)

Lemma string_app_assoc (s1 s2 s3 : string) :
  (s1 +:+ s2) +:+ s3 = s1 +:+ (s2 +:+ s3).
Proof.
  induction s1 as [|c s1 IH]; [done|].
  change (String c ((s1 +:+ s2) +:+ s3) = String c (s1 +:+ s2 +:+ s3)).
  by rewrite IH.
Qed.

Lemma lex_from_word_run s : ∀ w,
  all_chars is_word s = true →
  lex_from (Some w) s = Some [word_token (w +:+ s); T_EOF].
Proof.
  induction s as [|c s IH]; intros w.
  - intros _. simpl. do 3 f_equal. clear. induction w as [|a w IH]; [done|].
    change (String a w = String a (w +:+ EmptyString)). by rewrite <- IH.
  - cbn [all_chars]. intros [Hc Hs]%andb_prop.
    rewrite lex_from_word_char, IH by done.
    by rewrite string_app_assoc.
Qed.

Lemma lex_word w :
  word_text w = true → lex_from None w = Some [word_token w; T_EOF].
Proof.
  destruct w as [|c w]; [done|]. cbn [word_text].
  intros [Hc Hw]%andb_prop.
  rewrite lex_from_start, Hc, word_not_space by by apply alpha_is_word.
  by rewrite lex_from_word_run.
Qed.

Lemma word_token_identifier_text y :
  identifier_text y = true → word_token y = T_IDENTIFIER y.
Proof.
  unfold identifier_text. intros [_ Hk%negb_true_iff]%andb_prop.
  apply bool_decide_eq_false in Hk. unfold keywords in Hk.
  rewrite !elem_of_cons, elem_of_nil in Hk.
  unfold word_token. by repeat case_decide; simplify_eq; try tauto.
Qed.

Lemma lex_token_text t :
  printable t = true → t ≠ T_EOF →
  lex_from None (token_text t) = Some [t; T_EOF].
Proof.
  destruct t; try done. simpl. intros Hy _.
  rewrite lex_word by (by apply andb_prop in Hy as [? _]).
  by rewrite word_token_identifier_text.
Qed.

(** The tokens of a printed token list are that list. *)
Lemma lex_print ts : ∀ ts',
  ts = ts' ++ [T_EOF] → T_EOF ∉ ts' →
  Forall (λ t, printable t = true) ts →
  lex (print ts) = Some ts.
Proof.
  unfold lex. induction ts as [|t ts IH]; intros ts' Hts Hn Hp.
  - by destruct ts'.
  - destruct ts' as [|t' ts']; [by injection Hts as -> ->|].
    rewrite <- app_comm_cons in Hts. injection Hts as -> ->.
    apply not_elem_of_cons in Hn as [Ht Hn].
    apply Forall_cons in Hp as [Hpt Hp].
    assert (print (t' :: ts' ++ [T_EOF]) =
            token_text t' +:+ String " " (print (ts' ++ [T_EOF]))) as ->
      by (by destruct t').
    rewrite (lex_from_app _ None [t']) by (done || by apply lex_token_text).
    rewrite lex_from_space by done. cbn [flush].
    by rewrite (IH ts').
Qed.

Lemma unparse_printable e :
  Forall (λ y, identifier_text y = true) (raw_names e) →
  Forall (λ t, printable t = true) (unparse e).
Proof.
  induction e as [op l IHl r IHr|e IHe|style c IHc|name|v]; simpl.
  - intros [Hl Hr]%Forall_app. apply Forall_app. split; [auto|].
    constructor; [by destruct op|auto].
  - intros He. constructor; [done|auto].
  - intros Hc. constructor; [done|]. apply Forall_app.
    split; [auto|by constructor].
  - intros Hn%Forall_inv. constructor; [exact Hn|constructor].
  - intros _. destruct v; by constructor.
Qed.

Lemma unparse_list_printable es :
  Forall (λ e, Forall (λ y, identifier_text y = true) (raw_names e)) es →
  Forall (λ t, printable t = true) (unparse_list es).
Proof.
  induction 1 as [|e es He Hes IH]; [by constructor|].
  cbn [unparse_list]. apply Forall_app. split; [by apply unparse_printable|].
  destruct es; by constructor.
Qed.

(** Round trip.  A list of trees that are bracketed as the precedence
    levels say and whose identifiers have proper names is what the
    parser returns on its printed text. *)
Theorem parse_print (es : list RawNode) :
  Forall (λ e, bracketed e = true) es →
  Forall (λ e, Forall (λ y, identifier_text y = true) (raw_names e)) es →
  parse (print (unparse_list es)) = Some es.
Proof.
  intros Hb Hn. apply parse_unparse; [|done].
  destruct (unparse_list_ends_in_EOF es) as (ts' & Hts & Hno).
  apply (lex_print _ ts'); [done..|]. by apply unparse_list_printable.
Qed.

Lemma parse_print_witness :
  parse (print (unparse_list
           [binary AND (binary OR (identifier "a") (identifier "b"))
                       (unary (group 1 (constant true)))])) =
  Some [binary AND (binary OR (identifier "a") (identifier "b"))
                   (unary (group 1 (constant true)))].
Proof. apply parse_print; repeat constructor. Defined.

(** Printing what the parser returned and parsing it again returns the
    same list. *)
Theorem parse_print_parse (input : string) (es : list RawNode) :
  parse input = Some es → parse (print (unparse_list es)) = Some es.
Proof.
  intros Hparse. destruct (parse_Some _ _ Hparse) as [_ Hb].
  apply parse_unparse; [|done].
  destruct (unparse_list_ends_in_EOF es) as (ts' & Hts & Hno).
  apply (lex_print _ ts'); [done..|]. apply unparse_list_printable.
  apply Forall_forall. intros e He. apply Forall_forall. intros y Hy.
  destruct (parse_Some _ _ Hparse) as [Hlex _].
  apply (lex_from_identifiers input None (unparse_list es)); [done..|].
  eapply unparse_in_list; [done|]. by apply names_in_unparse.
Qed.

Lemma parse_print_parse_witness :
  parse (print (unparse_list
           [binary OR (identifier "a")
                      (binary XOR (unary (identifier "b")) (identifier "c"))])) =
  Some [binary OR (identifier "a")
                  (binary XOR (unary (identifier "b")) (identifier "c"))].
Proof. apply (parse_print_parse "a    or not b xor c"). reflexivity. Defined.

Lemma parse_comma_witness :
  parse "a and b,not c" =
  Some ([binary AND (identifier "a") (identifier "b")]
        ++ [unary (identifier "c")]).
Proof.
  apply (proj2 (parse_comma "a and b" "not c" _)).
  exists [binary AND (identifier "a") (identifier "b")],
         [unary (identifier "c")].
  by split_and!.
Defined.

(** *** Words *)

(** A letter followed by letters, digits and underscores is one token:
    a keyword token when it is exactly one of the six keywords, and an
    IDENTIFIER with that text otherwise, so a keyword inside a longer
    word is not a keyword; on its own such an identifier parses to the
    identifier node of that name. *)
Theorem word_is_one_token (w : string) :
  word_text w = true →
  lex w = Some [word_token w; T_EOF] ∧
  (w ∈ keywords → ∀ y, word_token w ≠ T_IDENTIFIER y) ∧
  (w ∉ keywords → word_token w = T_IDENTIFIER w ∧
                  parse w = Some [identifier w]).
Proof.
  intros Hw. pose proof (lex_word w Hw) as Hlex. split_and!; [done| |].
  - unfold keywords. rewrite !elem_of_cons, elem_of_nil.
    by intros [->|[->|[->|[->|[->|[->|[]]]]]]] y.
  - intros Hk.
    assert (word_token w = T_IDENTIFIER w) as Hid.
    { apply word_token_identifier_text. unfold identifier_text.
      by rewrite Hw, bool_decide_eq_false_2. }
    split; [done|]. unfold parse, lex. by rewrite Hlex, Hid.
Qed.

Lemma word_is_one_token_witness :
  lex "nota_1" = Some [word_token "nota_1"; T_EOF].
Proof. refine (proj1 (word_is_one_token "nota_1" _)). reflexivity. Defined.

(** *** Misplaced operators *)

(** The tokens that can end an expression. *)
Lemma unparse_last e :
  ∃ init t, unparse e = init ++ [t] ∧ binary_operator t = None ∧ t ≠ T_NOT.
Proof.
  induction e as [op l IHl r [init [t [Hr Ht]]]|e [init [t [He Ht]]]
                 |style c IHc|name|v]; simpl.
  - exists (unparse l ++ operator_token op :: init), t.
    rewrite Hr. split; [same_list|done].
  - exists (T_NOT :: init), t. rewrite He. by split.
  - exists (T_LPAREN :: unparse c), T_RPAREN. by split.
  - exists [], (T_IDENTIFIER name). by split.
  - destruct v; [exists [], T_TRUE|exists [], T_FALSE]; by split.
Qed.

Lemma unparse_list_last es :
  es ≠ [] →
  ∃ init t, unparse_list es = init ++ [t; T_EOF] ∧
            binary_operator t = None ∧ t ≠ T_NOT.
Proof.
  induction es as [|e es IH]; [done|]. intros _.
  destruct es as [|e' es].
  - destruct (unparse_last e) as (init & t & He & Ht).
    exists init, t. cbn [unparse_list]. rewrite He. split; [same_list|done].
  - destruct IH as (init & t & Hes & Ht); [done|].
    exists (unparse e ++ T_COMMA :: init), t.
    rewrite unparse_list_cons, Hes. split; [same_list|done].
Qed.

Lemma lex_space_word (s w : string) ts :
  lex s = Some (ts ++ [T_EOF]) → word_text w = true →
  lex (s +:+ String " " w) = Some (ts ++ [word_token w; T_EOF]).
Proof.
  intros Hs Hw. unfold lex in *.
  rewrite (lex_from_app s None ts) by done.
  rewrite lex_from_space by done. cbn [flush].
  by rewrite lex_word.
Qed.

(** A text that ends in an operator makes the parser throw, whatever
    comes before it; so does a text that begins with a binary
    operator. *)
Theorem misplaced_operator (input w : string) :
  w ∈ ["and"; "or"; "xor"; "not"]%string →
  parse (input +:+ String " " w) = None ∧
  (w ≠ "not"%string → parse (w +:+ String " " input) = None).
Proof.
  intros Hw.
  assert (word_text w = true ∧ word_token w ≠ T_EOF ∧
          (binary_operator (word_token w) ≠ None ∨ word_token w = T_NOT) ∧
          (w ≠ "not"%string →
           ∀ ts, run None [] None (word_token w :: ts) = None))
    as (Hword & Hne & Hop & Hstart).
  { rewrite !elem_of_cons, elem_of_nil in Hw.
    destruct Hw as [->|[->|[->|[->|[]]]]]; split_and!; try done;
      try (by left); by right. }
  split.
  - destruct (parse (input +:+ String " " w)) as [es|] eqn:Hparse; [|done].
    exfalso. apply parse_Some in Hparse as [Hlex _].
    destruct (lex input) as [ts|] eqn:Hin; last first.
    { unfold lex in *. by rewrite lex_from_app_None in Hlex. }
    destruct (lex_from_ends_in_EOF _ _ _ Hin) as (ts' & -> & _).
    rewrite (lex_space_word input w ts') in Hlex by done.
    injection Hlex as Hlex.
    destruct es as [|e es].
    + destruct ts' as [|? [|? ?]]; by simplify_eq/=.
    + destruct (unparse_list_last (e :: es)) as (init & t & Hes & Hb & Hn);
        [done|].
      rewrite Hes in Hlex.
      change [word_token w; T_EOF] with ([word_token w] ++ [T_EOF]) in Hlex.
      change [t; T_EOF] with ([t] ++ [T_EOF]) in Hlex.
      rewrite !app_assoc in Hlex.
      apply app_inj_tail in Hlex as [Hlex _].
      apply app_inj_tail in Hlex as [_ <-].
      by destruct Hop.
  - intros Hnot. unfold parse, lex.
    rewrite (lex_from_app w None [word_token w])
      by (done || by rewrite lex_word).
    rewrite lex_from_space by done. cbn [flush].
    destruct (lex_from None input) as [ts|]; [|done]. simpl.
    by apply Hstart.
Qed.

Lemma misplaced_operator_witness : parse ("(a or b)" +:+ " and") = None.
Proof.
  refine (proj1 (misplaced_operator "(a or b)" "and" _)).
  apply (bool_decide_unpack _). by vm_compute.
Defined.

End LanguageFacts.

(** ** The model: notations, states and rows *)

Module ModelFacts.
Import Model Samples SetFacts EvaluationFacts AnalysisFacts StreamFacts.
Local Open Scope nat_scope.
Local Open Scope list_scope.

Section Notations.

Variables cParser latexParser mathParser pythonParser
  : string → SyntaxError + list RawNode.

Abbreviation model_parse :=
  (model_parse cParser latexParser mathParser pythonParser).
Abbreviation document :=
  (document cParser latexParser mathParser pythonParser).
Abbreviation step := (step cParser latexParser mathParser pythonParser).
Abbreviation model := (Model.model cParser latexParser mathParser pythonParser).
Abbreviation states_from :=
  (states_from cParser latexParser mathParser pythonParser).

(** A concrete notation is read by its own grammar and by no other: the
    nodes that grammar returns are normalized, and its syntax error
    becomes a ParseError with that message and location and no detected
    notation. *)
Theorem concrete_notation (str : string) (flag : bool) :
  let i lang := {| in_string := str; in_lang := lang;
                   in_showSubExpressions := flag |} in
  model_parse (i "c") = delegated "c" str flag cParser ∧
  model_parse (i "latex") = delegated "latex" str flag latexParser ∧
  model_parse (i "math") = delegated "math" str flag mathParser ∧
  model_parse (i "python") = delegated "python" str flag pythonParser.
Proof.
  intros i. unfold Model.model_parse, delegated, i.
  cbn [in_lang in_string in_showSubExpressions].
  change (languages cParser latexParser mathParser pythonParser "c")
    with (Some (cLang cParser)).
  change (languages cParser latexParser mathParser pythonParser "latex")
    with (Some (latexLang latexParser)).
  change (languages cParser latexParser mathParser pythonParser "math")
    with (Some (mathLang mathParser)).
  change (languages cParser latexParser mathParser pythonParser "python")
    with (Some (pythonLang pythonParser)).
  cbn [parse cLang latexLang mathLang pythonLang]. unfold concrete.
  split_and!; [destruct (cParser str)|destruct (latexParser str)
              |destruct (mathParser str)|destruct (pythonParser str)]; done.
Qed.

(** A notation that is not a key of [languages] gives a ParseError with
    no location and no detected notation, whatever the text. *)
Theorem unknown_notation (str lang : string) (flag : bool) :
  lang ∉ language_keys →
  let i := {| in_string := str; in_lang := lang;
              in_showSubExpressions := flag |} in
  ∃ error,
    model_parse i = inl error ∧
    pe_lang error = lang ∧ pe_string error = str ∧
    pe_location error = None ∧ pe_detected error = None ∧
    get_error (document i) =
      Some {| err_location := None; err_message := pe_message error |}.
Proof.
  unfold language_keys. rewrite !not_elem_of_cons.
  intros (? & ? & ? & ? & ? & _). cbv zeta.
  unfold Model.document, Model.model_parse, languages.
  cbn [in_lang in_string in_showSubExpressions].
  rewrite !decide_False by done. eexists. by split_and!.
Qed.

(** Case analysis on what the four parsers do with a text, and the
    unfolding of [parse] for a notation that is a key of [languages]. *)
Ltac parsers str :=
  destruct (cParser str) eqn:?; destruct (pythonParser str) eqn:?;
  destruct (latexParser str) eqn:?; destruct (mathParser str) eqn:?.

Ltac unfold_parse :=
  unfold Model.model_parse; cbn [in_lang in_string in_showSubExpressions];
  change (languages cParser latexParser mathParser pythonParser "auto")
    with (Some (autoLang cParser latexParser mathParser pythonParser));
  change (languages cParser latexParser mathParser pythonParser "c")
    with (Some (cLang cParser));
  change (languages cParser latexParser mathParser pythonParser "latex")
    with (Some (latexLang latexParser));
  change (languages cParser latexParser mathParser pythonParser "math")
    with (Some (mathLang mathParser));
  change (languages cParser latexParser mathParser pythonParser "python")
    with (Some (pythonLang pythonParser));
  cbn [parse Model.autoLang Model.allLanguages autoLang_loop
       cLang latexLang mathLang pythonLang name];
  unfold concrete;
  repeat match goal with
         | H : ?p ?s = _ |- context [?p ?s] => rewrite H
         end;
  cbn [location detected message pr_parsed pr_lang pr_detected];
  repeat match goal with
         | |- context [(?a <? ?b)%N] => destruct (a <? b)%N
         end;
  cbn [location detected message pr_parsed pr_lang pr_detected].

Lemma concrete_notations_elem d l :
  (d, l) ∈ concrete_notations ↔
  (d = "C" ∧ l = "c") ∨ (d = "Python" ∧ l = "python") ∨
  (d = "Latex" ∧ l = "latex") ∨ (d = "Math" ∧ l = "math").
Proof.
  unfold concrete_notations. rewrite !elem_of_cons, elem_of_nil.
  split.
  - intros [[= -> ->]|[[= -> ->]|[[= -> ->]|[[= -> ->]|[]]]]]; tauto.
  - intros [[-> ->]|[[-> ->]|[[-> ->]|[-> ->]]]]; tauto.
Qed.

Lemma concrete_names_elem d :
  d ∈ concrete_notations.*1 ↔
  d = "C"%string ∨ d = "Python"%string ∨ d = "Latex"%string ∨ d = "Math"%string.
Proof.
  unfold concrete_notations. cbn [fmap list_fmap fst].
  rewrite !elem_of_cons, elem_of_nil. tauto.
Qed.

(** With the notation auto the result always names a detected notation,
    one of C, Python, Latex and Math, whether parsing succeeds or fails,
    and a failure always has a location: auto detection never ends in
    anything but a result or a ParseError of one of the four grammars. *)
Theorem auto_always_detects (str : string) (flag : bool) :
  match model_parse {| in_string := str; in_lang := "auto";
                       in_showSubExpressions := flag |} with
  | inr p =>
    p_lang p = "auto"%string ∧
    ∃ detected, p_detected p = Some detected ∧
                detected ∈ concrete_notations.*1
  | inl error =>
    pe_lang error = "auto"%string ∧
    (∃ detected, pe_detected error = Some detected ∧
                 detected ∈ concrete_notations.*1) ∧
    is_Some (pe_location error)
  end.
Proof.
  parsers str; unfold_parse;
    (split; [done|]); repeat split; eauto;
    eexists; (split; [done|]); apply concrete_names_elem; tauto.
Qed.

(** Auto detection and the concrete notations agree: when auto succeeds
    with a detected notation, that notation read on its own gives the
    same expressions; and auto fails exactly when each of the four
    concrete notations fails. *)
Theorem auto_agrees_with_concrete (str : string) (flag : bool) :
  let i lang := {| in_string := str; in_lang := lang;
                   in_showSubExpressions := flag |} in
  (∀ p, model_parse (i "auto") = inr p →
     ∃ detected lang p',
       p_detected p = Some detected ∧
       (detected, lang) ∈ concrete_notations ∧
       model_parse (i lang) = inr p' ∧
       p_expressions p' = p_expressions p) ∧
  ((∃ error, model_parse (i "auto") = inl error) ↔
   ∀ detected lang, (detected, lang) ∈ concrete_notations →
     ∃ error, model_parse (i lang) = inl error).
Proof.
  intros i. unfold i. split.
  - intros p Hp.
    assert (∃ detected lang, p_detected p = Some detected ∧
              (detected = "C" ∧ lang = "c" ∨
               detected = "Python" ∧ lang = "python" ∨
               detected = "Latex" ∧ lang = "latex" ∨
               detected = "Math" ∧ lang = "math") ∧
              ∃ p', model_parse (i lang) = inr p' ∧
                    p_expressions p' = p_expressions p)
      as (detected & lang & Hd & Hl & p' & Hp' & He).
    { revert Hp. unfold i.
      parsers str; unfold_parse; try done; intros [= <-];
        cbn [p_detected p_expressions];
        match goal with
        | |- ∃ d l, Some ?n = Some d ∧ _ => exists n
        end;
        first
          [ exists "c"%string; (split; [done|]);
            (split; [by left|])
          | exists "python"%string; (split; [done|]);
            (split; [by right; left|])
          | exists "latex"%string; (split; [done|]);
            (split; [by right; right; left|])
          | exists "math"%string; (split; [done|]);
            (split; [by right; right; right|]) ];
        unfold_parse; by eexists. }
    exists detected, lang, p'. split_and!; [done| |done..].
    by apply concrete_notations_elem.
  - split.
    + intros [error Herror] detected lang Hin%concrete_notations_elem.
      revert Herror.
      destruct Hin as [[-> ->]|[[-> ->]|[[-> ->]|[-> ->]]]];
        parsers str; unfold_parse; try done; eauto.
    + intros Hall.
      destruct (Hall "C"%string "c"%string) as [e1 H1];
        [apply concrete_notations_elem; tauto|].
      destruct (Hall "Python"%string "python"%string) as [e2 H2];
        [apply concrete_notations_elem; tauto|].
      destruct (Hall "Latex"%string "latex"%string) as [e3 H3];
        [apply concrete_notations_elem; tauto|].
      destruct (Hall "Math"%string "math"%string) as [e4 H4];
        [apply concrete_notations_elem; tauto|].
      clear Hall. revert H1 H2 H3 H4.
      parsers str; unfold_parse; try done; eauto.
Qed.

(** The sub-expression flag is carried along and read by nothing: two
    inputs that differ in it alone give the same detected notation,
    expressions, identifiers, sub-expressions, top-level expressions,
    error and evaluation. *)
Theorem flag_is_carried (str lang : string) (flag flag' : bool) :
  let d := document {| in_string := str; in_lang := lang;
                       in_showSubExpressions := flag |} in
  let d' := document {| in_string := str; in_lang := lang;
                        in_showSubExpressions := flag' |} in
  get_detected d = get_detected d' ∧
  get_expressions d = get_expressions d' ∧
  get_identifiers d = get_identifiers d' ∧
  get_subExpressions d = get_subExpressions d' ∧
  get_toplevelExpressions d = get_toplevelExpressions d' ∧
  get_error d = get_error d' ∧
  ∀ selectedRow, subEvalutation d selectedRow = subEvalutation d' selectedRow.
Proof.
  intros d d'. subst d d'. unfold Model.document, Model.model_parse.
  cbn [in_lang in_string in_showSubExpressions].
  by destruct (match languages _ _ _ _ lang with
               | Some l => parse l str
               | None => _
               end).
Qed.

(** The evaluation of an analysed document never throws. *)
Lemma subEvalutation_analysis (p : Parsed) (selectedRow : option Z) :
  ∃ m, subEvalutation (Analysis (analyze p)) selectedRow = inr m.
Proof.
  destruct selectedRow as [row|]; [|by eexists].
  destruct (subEvalutation_lookup (analyze p) row (identifiers_NoDup _)
              (toplevel_names _)) as (_ & m & Hm & _).
  eauto.
Qed.

(** When the stream of states ends in an error: exactly when a row is
    selected, by an event that does not clear the selection, while the
    current text does not parse (the failed document has no identifiers
    to map over).  No other event ends it. *)
Theorem stream_error (l : Live) (ev : Event) :
  (∃ e, (step l ev).2 = inl e) ↔
  (∃ error, model_parse (latest l) = inl error) ∧
  ∃ r, ev = selectRow (Some r) ∧ selected l ≠ Some r.
Proof.
  split.
  - intros [e He]. destruct ev as [str|lang|flag|val];
      [by destruct (switch_emits cParser latexParser mathParser pythonParser
                      {| in_string := str; in_lang := in_lang (latest l);
                         in_showSubExpressions :=
                           in_showSubExpressions (latest l) |})
            as (s & Hs & _); cbn [Model.step] in He; rewrite Hs in He
      |by destruct (switch_emits cParser latexParser mathParser pythonParser
                      {| in_string := in_string (latest l); in_lang := lang;
                         in_showSubExpressions :=
                           in_showSubExpressions (latest l) |})
            as (s & Hs & _); cbn [Model.step] in He; rewrite Hs in He
      |by destruct (switch_emits cParser latexParser mathParser pythonParser
                      {| in_string := in_string (latest l);
                         in_lang := in_lang (latest l);
                         in_showSubExpressions := flag |})
            as (s & Hs & _); cbn [Model.step] in He; rewrite Hs in He
      |].
    cbn [Model.step snd] in He. unfold state, Model.document in He.
    destruct (model_parse (latest l)) as [error|p] eqn:Hparse.
    + split; [by eexists|].
      unfold toggle in He. case_decide as Hsel; [done|].
      destruct val as [r|]; [|done]. by exists r.
    + destruct (subEvalutation_analysis p (toggle (selected l) val))
        as [m Hm].
      by rewrite Hm in He.
  - intros [[error Herror] (r & -> & Hsel)].
    cbn [Model.step snd]. unfold state, Model.document. rewrite Herror.
    unfold toggle. rewrite decide_False by done. by eexists.
Qed.

(** The first state is that of the empty text read with the notation
    auto, the flag set and no row selected; the stream of states is
    never empty. *)
Theorem first_state (events : list Event) :
  ∃ s states,
    model events = s :: states ∧
    s_string s = EmptyString ∧ s_lang s = "auto"%string ∧
    s_showSubExpressions s = true ∧ s_selectedRow s = None ∧
    s_subEvalutation s = None.
Proof.
  unfold Model.model, Model.switch, state. cbn [subEvalutation].
  eexists _, _. split; [reflexivity|]. by split_and!.
Qed.

Lemma distinct_from_same {A K} `{EqDecision K} (key : A → K) k (l : list A) :
  Forall (λ x, key x = k) l → distinct_from key k l = [].
Proof.
  induction 1 as [|x l Hx Hl IH]; [done|].
  cbn [distinct_from]. by rewrite decide_True.
Qed.

Lemma step_table (l : Live) (ev : Event) s :
  (step l ev).2 = inr s → s_table s = [].
Proof.
  destruct ev; cbn [Model.step Model.switch snd]; unfold state;
    destruct (subEvalutation _ _); try done; by intros [= <-].
Qed.

Lemma states_from_table (events : list Event) : ∀ l : Live,
  Forall (λ s, s_table s = []) (states_from l events).
Proof.
  induction events as [|ev events IH]; intros l; [constructor|].
  cbn [Model.states_from].
  destruct (step l ev) as [l' [e|s]] eqn:Hstep; [constructor|].
  constructor; [|apply IH].
  apply (step_table l ev). by rewrite Hstep.
Qed.

Lemma first_state_table (events : list Event) :
  ∃ s states,
    model events = s :: states ∧ s_table s = [] ∧
    Forall (λ s, s_table s = []) states.
Proof.
  unfold Model.model, Model.switch, state. cbn [subEvalutation].
  eexists _, _. split; [reflexivity|]. split; [done|].
  apply states_from_table.
Qed.

(** The table stream of the component emits one value whatever the
    events are, the empty table: every state carries the same table, so
    [distinctUntilChanged] lets only the first through. *)
Theorem table_emits_once (events : list Event) :
  table_ (model events) = [[]].
Proof.
  destruct (first_state_table events) as (s & states & -> & Hs & Hall).
  unfold table_, distinctUntilChanged. rewrite Hs.
  rewrite distinct_from_same by done. cbn [fmap list_fmap]. by rewrite Hs.
Qed.

(** *** The empty input *)


End Notations.


Lemma unknown_notation_witness :
  ∃ error,
    Model.model_parse accepting accepting accepting accepting
      {| in_string := "a and b"; in_lang := "java";
         in_showSubExpressions := true |} = inl error ∧
    pe_location error = None.
Proof.
  destruct (unknown_notation accepting accepting accepting accepting
              "a and b" "java" true) as (error & H & _ & _ & Hl & _).
  - apply (bool_decide_unpack _). by vm_compute.
  - by exists error.
Defined.

Lemma stream_error_witness :
  ∃ e, (Model.step (rejecting 2) (rejecting 0) (rejecting 1) (rejecting 4)
          {| latest := {| in_string := "a &"; in_lang := "c";
                          in_showSubExpressions := true |};
             selected := None |}
          (selectRow (Some 1%Z))).2 = inl e.
Proof.
  apply (proj2 (stream_error (rejecting 2) (rejecting 0) (rejecting 1)
                  (rejecting 4) _ _)).
  split; [by eexists|]. by exists 1%Z.
Defined.

(** *** Row selection *)

Lemma toggle_twice (c val : option Z) :
  toggle (toggle c val) val = if decide (c = val) then val else None.
Proof.
  unfold toggle. destruct (decide (c = val)) as [->|Hne].
  - destruct val; by repeat case_decide.
  - by rewrite decide_True.
Qed.

(** The selection is none or the row of the last event; an event with
    the value null clears it; the same value twice in a row leaves that
    row selected if it was selected before the two events, and nothing
    selected otherwise. *)
Theorem selection_protocol (rows : list (option Z)) :
  (current rows = None ∨
   ∃ rows' r, rows = rows' ++ [Some r] ∧ current rows = Some r) ∧
  current (rows ++ [None]) = None ∧
  ∀ val, current (rows ++ [val; val]) =
         if decide (current rows = val) then val else None.
Proof.
  split_and!.
  - destruct rows as [|v rows _] using rev_ind; [by left|].
    rewrite current_snoc. unfold toggle. case_decide; [by left|].
    destruct v as [r|]; [|by left]. right. by exists rows, r.
  - rewrite current_snoc. unfold toggle. by case_decide.
  - intros val. change [val; val] with ([val] ++ [val]).
    rewrite app_assoc, !current_snoc. apply toggle_twice.
Qed.

(** *** Rows and assignments *)

Lemma identifierMap_is_Some (identifiers : list string) row name :
  is_Some (identifierMap identifiers row !! name) ↔ name ∈ identifiers.
Proof.
  split.
  - intros [v Hv]. by eapply identifierMap_lookup_inv.
  - intros [i Hi]%list_elem_of_lookup_1.
    assert (∃ v, (name, v) ∈ imap (λ i name, (name, bit i row)) identifiers)
      as [v Hv] by (eexists; apply identifierMap_pairs; eauto).
    unfold identifierMap. rewrite Map_list_to_map.
    apply not_eq_None_Some. intros Hnone%not_elem_of_list_to_map_2.
    apply Hnone. rewrite fmap_reverse, elem_of_reverse.
    apply list_elem_of_fmap. by exists (name, v).
Qed.

Lemma row_bits (n : nat) (row row' : Z) :
  is_row n row → is_row n row' →
  (∀ i, i < n → Z.testbit row (Z.of_nat i) = Z.testbit row' (Z.of_nat i)) →
  row = row'.
Proof.
  unfold is_row. intros Hr Hr' Hbits. apply Z.bits_inj'. intros k Hk.
  destruct (decide (k < Z.of_nat n)%Z) as [Hlt|Hge].
  - specialize (Hbits (Z.to_nat k)). rewrite Z2Nat.id in Hbits by done.
    apply Hbits. lia.
  - rewrite <- (Z.mod_small row (2 ^ Z.of_nat n)) by done.
    rewrite <- (Z.mod_small row' (2 ^ Z.of_nat n)) by done.
    by rewrite !Z.mod_pow2_bits_high by lia.
Qed.

(** The assignment of a row gives a value to the identifiers of the
    document and to no other name; and, with at most 32 identifiers, two
    different rows of the truth table give different assignments. *)
Theorem rows_are_assignments (p : Parsed) (row row' : Z) :
  let identifiers := a_identifiers (analyze p) in
  (∀ name, is_Some (identifierMap identifiers row !! name) ↔
           name ∈ identifiers) ∧
  (length identifiers ≤ 32 →
   is_row (length identifiers) row → is_row (length identifiers) row' →
   identifierMap identifiers row = identifierMap identifiers row' →
   row = row').
Proof.
  intros identifiers. split; [intros name; apply identifierMap_is_Some|].
  intros Hlen Hr Hr' Heq. apply (row_bits (length identifiers)); [done..|].
  intros i Hi.
  destruct (lookup_lt_is_Some_2 identifiers i Hi) as [name Hname].
  pose proof (identifierMap_lookup identifiers row i name
                (identifiers_NoDup p) Hname) as H1.
  pose proof (identifierMap_lookup identifiers row' i name
                (identifiers_NoDup p) Hname) as H2.
  rewrite Heq, H2 in H1. injection H1 as H1.
  rewrite !bit_testbit in H1.
  destruct (Nat.ltb_spec i 32); [done|lia].
Qed.

Lemma rows_are_assignments_witness :
  identifierMap (a_identifiers (analyze (parsed "a and b"))) 1 ≠
  identifierMap (a_identifiers (analyze (parsed "a and b"))) 2.
Proof.
  intros Heq. assert (1 = 2)%Z as Hrows; [|discriminate Hrows].
  apply (proj2 (rows_are_assignments (parsed "a and b") 1 2)); [..|exact Heq].
  - vm_compute. lia.
  - unfold is_row. vm_compute. by split.
  - unfold is_row. vm_compute. by split.
Defined.

(** *** Top-level expressions *)

Lemma filter_filter_occurrences (e : Expression) (P : Expression → Prop)
    `{∀ x, Decision (P x)} (l : list Expression) :
  P e → filter (e =.) (filter P l) = filter (e =.) l.
Proof.
  intros He. induction l as [|x l IH]; [done|].
  rewrite (filter_cons P). destruct (decide (P x)) as [Hx|Hx].
  - rewrite !filter_cons. by rewrite IH.
  - rewrite IH, filter_cons.
    destruct (decide (e = x)) as [->|]; [by destruct Hx|done].
Qed.

(** [toplevelExpressions] holds the expressions that are not a bare
    identifier or a bare constant, in the order of [expressions] and as
    often as they occur there: it is a sublist of [expressions], its
    members are the members of [expressions] that are neither, and each
    of these occurs in it as many times as in [expressions].  Each of
    them is among the sub-expressions. *)
Theorem toplevel_expressions (p : Parsed) :
  let a := analyze p in
  a_toplevelExpressions a `sublist_of` a_expressions a ∧
  (∀ e, e ∈ a_toplevelExpressions a ↔
        e ∈ p_expressions p ∧
        ∀ name value, e ≠ Identifier name ∧ e ≠ Constant value) ∧
  (∀ e, (∀ name value, e ≠ Identifier name ∧ e ≠ Constant value) →
        length (filter (e =.) (a_toplevelExpressions a)) =
        length (filter (e =.) (a_expressions a))) ∧
  (∀ e, e ∈ a_toplevelExpressions a → e ∈ a_subExpressions a).
Proof.
  intros a. subst a. cbn [analyze a_toplevelExpressions a_expressions].
  split_and!.
  - apply sublist_filter.
  - intros e. rewrite list_elem_of_filter. split.
    + intros [[Hi Hc] He]. split; [done|]. intros name value.
      split; intros ->; [by apply Hi|by apply Hc].
    + intros [He Hleaf]. split; [|done].
      destruct e as [| | |name|value]; try done.
      * by destruct (Hleaf name true) as [? _].
      * by destruct (Hleaf EmptyString value) as [_ ?].
  - intros e Hleaf. f_equal. apply filter_filter_occurrences.
    destruct e as [| | |name|value]; try done.
    + by destruct (Hleaf name true) as [? _].
    + by destruct (Hleaf EmptyString value) as [_ ?].
  - intros e [_ He]%list_elem_of_filter.
    cbn [a_subExpressions]. apply elem_of_flat_map. exists e.
    split; [done|]. unfold collectSubExpressions.
    apply elem_of_first_seen. destruct e; by left.
Qed.

End ModelFacts.
